(** * AuthManager: the credential session manager of the Sitecore Search server

    A shallow embedding of [src/utils/auth-manager.ts] (class [AuthManager]).

    The class is asynchronous JavaScript executed by one cooperative
    scheduler.  Every [async] method is cut at its [await] into the
    synchronous prefix that runs when the method is called and the
    continuation that runs when the awaited network exchange answers.  The
    scheduler is a step function on an explicit manager state, driven by a
    list of events (calls, network answers, [.finally] callbacks, clears).

    Numbers are JavaScript numbers holding millisecond counts; they are
    modelled by [Z] (all values stay integral and far below 2^53, where the
    double arithmetic of the source is exact).  A turn of synchronous code
    is taken to be instantaneous: all the readings of [Date.now()] made
    within one turn give the same instant, the [now] of the event. *)

From Stdlib Require Import ZArith Lia.
From stdpp Require Import base option list strings gmap pretty.

(** ** Data model *)

(** [type AuthScope = 'discover' | 'event' | 'ingestion'] *)
Inductive AuthScope : Type := discover | event | ingestion.

#[global] Instance AuthScope_eq_dec : EqDecision AuthScope.
Proof. solve_decision. Defined.

(** [interface TokenResponse]: body answered to the generation POST. *)
Module TokenResponse.
Record t : Type := Build {
  accessToken : string;
  refreshToken : string;
  accessTokenExpiry : Z;
  refreshTokenExpiry : Z
}.
End TokenResponse.

(** [interface RefreshTokenResponse]: body answered to the refresh PUT. *)
Module RefreshTokenResponse.
Record t : Type := Build { accessToken : string }.
End RefreshTokenResponse.

(** [interface TokenStorage] *)
Record TokenStorage : Type := Build_TokenStorage {
  accessToken : string;
  refreshToken : string;
  accessTokenExpiresAt : Z;
  refreshTokenExpiresAt : Z
}.

(** What a rejected promise carries. *)
Inductive Error : Type :=
| ApiKeyRequired          (* new Error('API key is required to generate tokens') *)
| NoTokenStorage          (* new Error('No token storage available for refresh') *)
| TypeError               (* property access through an undefined tokenStorage *)
| AxiosError (msg : string). (* the axios call rejected: network error or non-2xx *)

(** A settled promise. *)
Inductive Settled (A : Type) : Type :=
| Fulfilled (a : A)
| Rejected (e : Error).
Arguments Fulfilled {A} a.
Arguments Rejected {A} e.

Inductive AcqKind : Type := Generation | Refresh.

(** The life of one promise stored in [tokenRefreshPromise], that is of
    [this.generateTokensFromApiKey().finally(..)] or
    [this.refreshAccessToken().finally(..)]. *)
Inductive Acquisition : Type :=
| Requesting (k : AcqKind)       (* body suspended at [await this.axios.post/put] *)
| Completed (r : Settled string) (* body returned or threw; [.finally] callback queued *)
| Finalised (r : Settled string). (* callback has run; the stored promise is settled *)

(** A call made on [this.axios]. *)
Inductive Request : Type :=
| Post (xApiKey : string) (scope : list AuthScope) (accessExpiry refreshExpiry : Z)
| Put (authorization : string).

(** The instance state of [class AuthManager].  [promises] is the heap of
    the promises created by [getAccessToken], addressed by position, and
    [requests] the log of the calls made on [this.axios], oldest first. *)
Record AuthManager : Type := Build_AuthManager {
  apiKey : option string;
  scopes : list AuthScope;
  accessTokenExpiry : Z;
  refreshTokenExpiry : Z;
  tokenStorage : option TokenStorage;
  tokenRefreshPromise : option nat;
  promises : list Acquisition;
  requests : list Request
}.

Definition set_tokenStorage (s : option TokenStorage) (m : AuthManager) : AuthManager :=
  Build_AuthManager (apiKey m) (scopes m) (accessTokenExpiry m) (refreshTokenExpiry m)
    s (tokenRefreshPromise m) (promises m) (requests m).

Definition set_tokenRefreshPromise (p : option nat) (m : AuthManager) : AuthManager :=
  Build_AuthManager (apiKey m) (scopes m) (accessTokenExpiry m) (refreshTokenExpiry m)
    (tokenStorage m) p (promises m) (requests m).

Definition set_promises (ps : list Acquisition) (m : AuthManager) : AuthManager :=
  Build_AuthManager (apiKey m) (scopes m) (accessTokenExpiry m) (refreshTokenExpiry m)
    (tokenStorage m) (tokenRefreshPromise m) ps (requests m).

Definition send (r : Request) (m : AuthManager) : AuthManager :=
  Build_AuthManager (apiKey m) (scopes m) (accessTokenExpiry m) (refreshTokenExpiry m)
    (tokenStorage m) (tokenRefreshPromise m) (promises m) (requests m ++ [r]).

(** The constructor, and its default arguments. *)
Definition default_scopes : list AuthScope := [discover; event; ingestion].
Definition default_accessTokenExpiry : Z := 86400000.
Definition default_refreshTokenExpiry : Z := 604800000.

Definition new_AuthManager (key : option string) (sc : list AuthScope)
    (accessExpiry refreshExpiry : Z) : AuthManager :=
  Build_AuthManager key sc accessExpiry refreshExpiry None None [] [].

(** JavaScript truthiness of a string: only the empty string is falsy. *)
Definition truthy (s : string) : bool := negb (String.eqb s "").

(** Truthiness of a [string | null] (or [string | undefined]) value. *)
Definition truthy_opt (o : option string) : bool :=
  match o with
  | Some s => truthy s
  | None => false
  end.

(** ** Validity predicates and the synchronous operations *)

(** [isAccessTokenValid], evaluated when [Date.now()] is [now]. *)
Definition isAccessTokenValid (now : Z) (m : AuthManager) : bool :=
  match tokenStorage m with
  | None => false
  | Some ts => (now <? accessTokenExpiresAt ts - 60000)%Z
  end.

(** [isRefreshTokenValid] *)
Definition isRefreshTokenValid (now : Z) (m : AuthManager) : bool :=
  match tokenStorage m with
  | None => false
  | Some ts => (now <? refreshTokenExpiresAt ts)%Z
  end.

(** [clearTokens] *)
Definition clearTokens (m : AuthManager) : AuthManager := set_tokenStorage None m.

Record TokenStatus : Type := Build_TokenStatus {
  hasTokens : bool;
  accessTokenValid : bool;
  refreshTokenValid : bool
}.

(** [getTokenStatus] *)
Definition getTokenStatus (now : Z) (m : AuthManager) : TokenStatus :=
  {| hasTokens := bool_decide (is_Some (tokenStorage m));
     accessTokenValid := isAccessTokenValid now m;
     refreshTokenValid := isRefreshTokenValid now m |}.

(** ** The two exchanges, each cut at its [await] *)

(** [generateTokensFromApiKey] up to [await this.axios.post(..)]. *)
Definition generateTokensFromApiKey (m : AuthManager) : AuthManager * Acquisition :=
  match apiKey m with
  | Some k =>
      if truthy k
      then (send (Post k (scopes m) (accessTokenExpiry m) (refreshTokenExpiry m)) m,
            Requesting Generation)
      else (m, Completed (Rejected ApiKeyRequired))
  | None => (m, Completed (Rejected ApiKeyRequired))
  end.

(** [generateTokensFromApiKey] from the answer of the POST to its end. *)
Definition generateTokensFromApiKey_resume (resp : Error + TokenResponse.t) (now : Z)
    (m : AuthManager) : AuthManager * Settled string :=
  match resp with
  | inr data =>
      let ts := {| accessToken := TokenResponse.accessToken data;
                   refreshToken := TokenResponse.refreshToken data;
                   accessTokenExpiresAt := now + TokenResponse.accessTokenExpiry data;
                   refreshTokenExpiresAt := now + TokenResponse.refreshTokenExpiry data |} in
      (set_tokenStorage (Some ts) m, Fulfilled (accessToken ts))
  | inl error => (m, Rejected error)
  end.

(** [refreshAccessToken] up to [await this.axios.put(..)]. *)
Definition refreshAccessToken (m : AuthManager) : AuthManager * Acquisition :=
  match tokenStorage m with
  | None => (m, Completed (Rejected NoTokenStorage))
  | Some ts => (send (Put ("Bearer " +:+ refreshToken ts)) m, Requesting Refresh)
  end.

(** [refreshAccessToken] from the answer of the PUT to its end.  The two
    assignments go through [this.tokenStorage] as it is then; when it is
    undefined the first one throws inside the [try], and the [catch] runs. *)
Definition refreshAccessToken_resume (resp : Error + RefreshTokenResponse.t) (now : Z)
    (m : AuthManager) : AuthManager * Settled string :=
  match resp with
  | inr data =>
      match tokenStorage m with
      | Some ts =>
          let ts' := {| accessToken := RefreshTokenResponse.accessToken data;
                        refreshToken := refreshToken ts;
                        accessTokenExpiresAt := now + accessTokenExpiry m;
                        refreshTokenExpiresAt := refreshTokenExpiresAt ts |} in
          (set_tokenStorage (Some ts') m, Fulfilled (accessToken ts'))
      | None => (set_tokenStorage None m, Rejected TypeError)
      end
  | inl error => (set_tokenStorage None m, Rejected error)
  end.

(** ** [getAccessToken] and [getAuthHeader] *)

(** What an [await] receives: a value, or a promise of the heap. *)
Inductive Awaitable (A : Type) : Type :=
| Value (a : A)
| Promise (p : nat).
Arguments Value {A} a.
Arguments Promise {A} p.

(** [this.tokenRefreshPromise = <exchange>.finally(..)]: the new promise
    goes to the heap and becomes the in-flight marker. *)
Definition track (started : AuthManager * Acquisition) : AuthManager * Awaitable (option string) :=
  let p := length (promises started.1) in
  (set_tokenRefreshPromise (Some p) (set_promises (promises started.1 ++ [started.2]) started.1),
   Promise p).

(** [getAccessToken]: declared [Promise<string | null>]. *)
Definition getAccessToken (now : Z) (m : AuthManager) : AuthManager * Awaitable (option string) :=
  match tokenRefreshPromise m with
  | Some p => (m, Promise p)
  | None =>
      match tokenStorage m with
      | Some ts =>
          if isAccessTokenValid now m then (m, Value (Some (accessToken ts)))
          else if isRefreshTokenValid now m then track (refreshAccessToken m)
          else track (generateTokensFromApiKey m)
      | None => track (generateTokensFromApiKey m)
      end
  end.

Abbreviation Headers := (gmap string string).

(** The end of [getAuthHeader], from [if (accessToken)] on. *)
Definition headerOfToken (key : string) (token : option string) : Headers :=
  match token with
  | Some t => if truthy t then {[ "Authorization" := "Bearer " +:+ t ]}
              else {[ "Authorization" := key ]}
  | None => {[ "Authorization" := key ]}
  end.

(** [this.scopes.includes('ingestion') && this.scopes.length === 1] *)
Definition ingestionOnly (m : AuthManager) : bool :=
  bool_decide (ingestion ∈ scopes m) && (length (scopes m) =? 1).

(** A call of [getAuthHeader] after its synchronous part: it has
    returned, or it is suspended at [await this.getAccessToken()]. *)
Inductive AuthHeaderCall : Type :=
| Returns (h : Headers)
| Awaits (p : nat).

(** [getAuthHeader] up to its [await]. *)
Definition getAuthHeader (now : Z) (m : AuthManager) : AuthManager * AuthHeaderCall :=
  match apiKey m with
  | None => (m, Returns ∅)
  | Some key =>
      if negb (truthy key) then (m, Returns ∅)
      else if ingestionOnly m then (m, Returns {[ "Authorization" := key ]})
      else match getAccessToken now m with
           | (m', Value token) => (m', Returns (headerOfToken key token))
           | (m', Promise p) => (m', Awaits p)
           end
  end.

(** [getAuthHeader] once the awaited promise has settled.  A suspended
    call has passed the [!this.apiKey] test, and [apiKey] never changes. *)
Definition getAuthHeader_resume (m : AuthManager) (r : Settled string) : Settled Headers :=
  match r with
  | Fulfilled t => Fulfilled (headerOfToken (default "" (apiKey m)) (Some t))
  | Rejected e => Rejected e
  end.

(** What the caller of [getAuthHeader] finally observes, if anything yet. *)
Definition observed (m : AuthManager) (c : AuthHeaderCall) : option (Settled Headers) :=
  match c with
  | Returns h => Some (Fulfilled h)
  | Awaits p =>
      match promises m !! p with
      | Some (Finalised r) => Some (getAuthHeader_resume m r)
      | _ => None
      end
  end.

(** ** The cooperative scheduler *)

Inductive Event : Type :=
| CallGetAuthHeader (now : Z)
| GenerationAnswers (p : nat) (resp : Error + TokenResponse.t) (now : Z)
| RefreshAnswers (p : nat) (resp : Error + RefreshTokenResponse.t) (now : Z)
| RunFinally (p : nat)
| CallClearTokens.

(** Store the outcome of the body of promise [p]. *)
Definition complete (p : nat) (done : AuthManager * Settled string) : AuthManager :=
  set_promises (<[p := Completed done.2]> (promises done.1)) done.1.

(** One turn of the scheduler; [None] when the event cannot happen. *)
Definition step (m : AuthManager) (ev : Event) : option AuthManager :=
  match ev with
  | CallGetAuthHeader now => Some (getAuthHeader now m).1
  | GenerationAnswers p resp now =>
      match promises m !! p with
      | Some (Requesting Generation) =>
          Some (complete p (generateTokensFromApiKey_resume resp now m))
      | _ => None
      end
  | RefreshAnswers p resp now =>
      match promises m !! p with
      | Some (Requesting Refresh) =>
          Some (complete p (refreshAccessToken_resume resp now m))
      | _ => None
      end
  | RunFinally p =>
      match promises m !! p with
      | Some (Completed r) =>
          Some (set_tokenRefreshPromise None
                  (set_promises (<[p := Finalised r]> (promises m)) m))
      | _ => None
      end
  | CallClearTokens => Some (clearTokens m)
  end.

Fixpoint run (m : AuthManager) (evs : list Event) : option AuthManager :=
  match evs with
  | [] => Some m
  | ev :: evs' =>
      match step m ev with
      | Some m' => run m' evs'
      | None => None
      end
  end.

(** The states a manager built by the constructor can be in. *)
Definition reachable (m : AuthManager) : Prop :=
  ∃ key sc ae re evs, run (new_AuthManager key sc ae re) evs = Some m.

(** The instants [Date.now()] returned in a trace never decrease. *)
Definition time_of (ev : Event) : option Z :=
  match ev with
  | CallGetAuthHeader now => Some now
  | GenerationAnswers _ _ now => Some now
  | RefreshAnswers _ _ now => Some now
  | RunFinally _ => None
  | CallClearTokens => None
  end.

Fixpoint monotone (T : Z) (evs : list Event) : Prop :=
  match evs with
  | [] => True
  | ev :: evs' =>
      match time_of ev with
      | Some t => (T ≤ t)%Z ∧ monotone t evs'
      | None => monotone T evs'
      end
  end.

Fixpoint clock_after (T : Z) (evs : list Event) : Z :=
  match evs with
  | [] => T
  | ev :: evs' => clock_after (default T (time_of ev)) evs'
  end.

(** [m] is reached by a manager whose clock never ran backwards, and the
    clock has not passed [T] yet. *)
Definition reachable_by (T : Z) (m : AuthManager) : Prop :=
  ∃ key sc ae re T0 evs,
    monotone T0 evs ∧ run (new_AuthManager key sc ae re) evs = Some m ∧
    (clock_after T0 evs ≤ T)%Z.

(** ** Vocabulary of the statements *)

(** An acquisition that has started and whose cleanup has not run. *)
Definition pending (a : Acquisition) : Prop :=
  match a with
  | Finalised _ => False
  | _ => True
  end.

Definition outstanding (m : AuthManager) (p : nat) : Prop :=
  ∃ a, promises m !! p = Some a ∧ pending a.

(** [getAuthHeader] gets as far as [getAccessToken]: a secret is
    configured and the scopes are not the single ingestion scope. *)
Definition usesTokens (m : AuthManager) : Prop :=
  ∃ key, apiKey m = Some key ∧ truthy key = true ∧ ingestionOnly m = false.

(** The manager after [getAccessToken] has started acquisition [a],
    sending the requests [rs]. *)
Definition launched (m : AuthManager) (a : Acquisition) (rs : list Request) : AuthManager :=
  Build_AuthManager (apiKey m) (scopes m) (accessTokenExpiry m) (refreshTokenExpiry m)
    (tokenStorage m) (Some (length (promises m))) (promises m ++ [a]) (requests m ++ rs).

(** Which acquisition [getAccessToken] starts at [now], if it starts one. *)
Inductive starts (now : Z) (m : AuthManager) : Acquisition → list Request → Prop :=
| starts_refresh ts :
    tokenStorage m = Some ts →
    isAccessTokenValid now m = false →
    isRefreshTokenValid now m = true →
    starts now m (Requesting Refresh) [Put ("Bearer " +:+ refreshToken ts)]
| starts_generation key :
    apiKey m = Some key → truthy key = true →
    isAccessTokenValid now m = false →
    isRefreshTokenValid now m = false →
    starts now m (Requesting Generation)
      [Post key (scopes m) (accessTokenExpiry m) (refreshTokenExpiry m)]
| starts_nothing :
    truthy_opt (apiKey m) = false →
    isAccessTokenValid now m = false →
    isRefreshTokenValid now m = false →
    starts now m (Completed (Rejected ApiKeyRequired)) [].

(** ** Invariants and vocabulary of the claims *)

(** The in-flight marker designates exactly the outstanding acquisitions. *)
Definition coalesced (m : AuthManager) : Prop :=
  ∀ p, outstanding m p ↔ tokenRefreshPromise m = Some p.

(** A stored pair that can serve neither for reuse nor for refresh at [T]. *)
Definition stale (T : Z) (s : option TokenStorage) : Prop :=
  ∀ ts, s = Some ts →
    (accessTokenExpiresAt ts - 60000 ≤ T)%Z ∧ (refreshTokenExpiresAt ts ≤ T)%Z.

(** What the storage looks like while an acquisition is in a given phase,
    the clock being at [T]. *)
Definition fits (T : Z) (s : option TokenStorage) (a : Acquisition) : Prop :=
  match a with
  | Requesting Generation => stale T s
  | Requesting Refresh => ∀ ts, s = Some ts → (accessTokenExpiresAt ts - 60000 ≤ T)%Z
  | Completed (Fulfilled v) => ∀ ts, s = Some ts → accessToken ts = v
  | Completed (Rejected _) => stale T s
  | Finalised _ => True
  end.

Definition timely (T : Z) (m : AuthManager) : Prop :=
  ∀ p a, promises m !! p = Some a → fits T (tokenStorage m) a.

(** The constructor arguments are never assigned again. *)
Definition same_config (m m' : AuthManager) : Prop :=
  apiKey m' = apiKey m ∧ scopes m' = scopes m ∧
  accessTokenExpiry m' = accessTokenExpiry m ∧ refreshTokenExpiry m' = refreshTokenExpiry m.

(** The pair left by a successful refresh answered at [now] with [data]. *)
Definition refreshed (m : AuthManager) (ts : TokenStorage) (data : RefreshTokenResponse.t)
    (now : Z) : TokenStorage :=
  {| accessToken := RefreshTokenResponse.accessToken data;
     refreshToken := refreshToken ts;
     accessTokenExpiresAt := now + accessTokenExpiry m;
     refreshTokenExpiresAt := refreshTokenExpiresAt ts |}.

(** The call performs a full generation: it sends the generation POST
    carrying the secret, and that request only, and awaits the new
    acquisition. *)
Definition performsGeneration (now : Z) (m : AuthManager) : Prop :=
  ∃ key, apiKey m = Some key ∧
    getAuthHeader now m =
      (launched m (Requesting Generation)
         [Post key (scopes m) (accessTokenExpiry m) (refreshTokenExpiry m)],
       Awaits (length (promises m))).

(** The access expiry of the stored pair, if any, is not after its
    refresh expiry. *)
Definition ordered (m : AuthManager) : Prop :=
  ∀ ts, tokenStorage m = Some ts →
    (accessTokenExpiresAt ts ≤ refreshTokenExpiresAt ts)%Z.

(** The event does not set an access expiry after the refresh expiry: a
    generation is answered with an access lifetime no longer than the
    refresh lifetime, a refresh is answered no later than the stored
    refresh expiry minus the configured access lifetime. *)
Definition ordersExpiries (m : AuthManager) (ev : Event) : Prop :=
  match ev with
  | GenerationAnswers _ (inr data) _ =>
      (TokenResponse.accessTokenExpiry data ≤ TokenResponse.refreshTokenExpiry data)%Z
  | RefreshAnswers _ (inr _) now =>
      ∀ ts, tokenStorage m = Some ts →
        (now + accessTokenExpiry m ≤ refreshTokenExpiresAt ts)%Z
  | _ => True
  end.

Fixpoint allOrderExpiries (m : AuthManager) (evs : list Event) : Prop :=
  match evs with
  | [] => True
  | ev :: evs' =>
      ordersExpiries m ev ∧
      match step m ev with
      | Some m' => allOrderExpiries m' evs'
      | None => True
      end
  end.

(** [if (accessToken)] fails: [getAuthHeader] goes on to its last
    [return], the raw secret. *)
Definition fallsBack (token : option string) : bool := negb (truthy_opt token).

(** The authentication endpoint answers with an empty access token. *)
Definition answersEmptyToken (ev : Event) : Prop :=
  match ev with
  | GenerationAnswers _ (inr data) _ => TokenResponse.accessToken data = ""
  | RefreshAnswers _ (inr data) _ => RefreshTokenResponse.accessToken data = ""
  | _ => False
  end.

(** Every empty access token the manager holds is accounted for by [E]. *)
Definition emptyOnlyIf (E : Prop) (m : AuthManager) : Prop :=
  (∀ ts, tokenStorage m = Some ts → accessToken ts = "" → E) ∧
  (∀ p, promises m !! p = Some (Completed (Fulfilled "")) → E) ∧
  (∀ p, promises m !! p = Some (Finalised (Fulfilled "")) → E).

(** ** Managers used as concrete instances *)

(** The manager of the scenario: every scope, lifetimes of one and five seconds. *)
Definition scenario : AuthManager :=
  new_AuthManager (Some "01-XXXX") default_scopes 1000 5000.

(** A manager built with the default lifetimes. *)
Definition tenant : AuthManager :=
  new_AuthManager (Some "01-XXXX") default_scopes
    default_accessTokenExpiry default_refreshTokenExpiry.

Definition granted (a r : string) (ae re : Z) : Error + TokenResponse.t :=
  inr (TokenResponse.Build a r ae re).

Definition renewed (a : string) : Error + RefreshTokenResponse.t :=
  inr (RefreshTokenResponse.Build a).

(** The scenario manager while its first generation is on the wire. *)
Definition generating : AuthManager :=
  launched scenario (Requesting Generation) [Post "01-XXXX" default_scopes 1000 5000].

(** The default manager holding the pair granted at instant 0 with the
    lifetimes it asked for, a day and a week. *)
Definition holding : AuthManager :=
  Build_AuthManager (Some "01-XXXX") default_scopes 86400000 604800000
    (Some (Build_TokenStorage "A1" "R1" 86400000 604800000)) None
    [Finalised (Fulfilled "A1")] [Post "01-XXXX" default_scopes 86400000 604800000].

(** The default manager, its access token expired, refreshing since the
    instant 86400000. *)
Definition refreshing : AuthManager :=
  launched holding (Requesting Refresh) [Put "Bearer R1"].

(** The scenario manager, its pair expired, generating again since the
    instant 6000. *)
Definition regenerating : AuthManager :=
  Build_AuthManager (Some "01-XXXX") default_scopes 1000 5000
    (Some (Build_TokenStorage "A1" "R1" 1000 5000)) (Some 1)
    [Finalised (Fulfilled "A1"); Requesting Generation]
    [Post "01-XXXX" default_scopes 1000 5000; Post "01-XXXX" default_scopes 1000 5000].

(** ** Vocabulary of the further properties of [AuthManager] *)

(** The access token carried by a successful answer of the endpoint. *)
Definition answeredAccessToken (ev : Event) : option string :=
  match ev with
  | GenerationAnswers _ (inr data) _ => Some (TokenResponse.accessToken data)
  | RefreshAnswers _ (inr data) _ => Some (RefreshTokenResponse.accessToken data)
  | _ => None
  end.

(** The refresh token carried by a successful generation. *)
Definition grantedRefreshToken (ev : Event) : option string :=
  match ev with
  | GenerationAnswers _ (inr data) _ => Some (TokenResponse.refreshToken data)
  | _ => None
  end.

(** The stored pair holds the tokens most recently answered in [evs]. *)
Definition holdsLatest (evs : list Event) (m : AuthManager) : Prop :=
  ∀ ts, tokenStorage m = Some ts →
    last (omap answeredAccessToken evs) = Some (accessToken ts) ∧
    last (omap grantedRefreshToken evs) = Some (refreshToken ts).

(** A request the manager may send, given what [evs] has granted: the
    generation POST built from the constructor arguments, or a refresh
    PUT bearing a refresh token that a generation has granted. *)
Definition legitimate (evs : list Event) (m : AuthManager) (r : Request) : Prop :=
  match r with
  | Post key sc ae re =>
      apiKey m = Some key ∧ truthy key = true ∧ sc = scopes m ∧
      ae = accessTokenExpiry m ∧ re = refreshTokenExpiry m
  | Put authorization =>
      ∃ t, t ∈ omap grantedRefreshToken evs ∧ authorization = "Bearer " +:+ t
  end.

(** The pair stored by a successful generation answered at [now]. *)
Definition generated (data : TokenResponse.t) (now : Z) : TokenStorage :=
  {| accessToken := TokenResponse.accessToken data;
     refreshToken := TokenResponse.refreshToken data;
     accessTokenExpiresAt := now + TokenResponse.accessTokenExpiry data;
     refreshTokenExpiresAt := now + TokenResponse.refreshTokenExpiry data |}.

(** The refresh token and its expiry, the part of the pair that only a
    generation writes. *)
Definition refreshPart (ts : TokenStorage) : string * Z :=
  (refreshToken ts, refreshTokenExpiresAt ts).

(** ** Configuration: [src/config.ts] *)

(** [type DomainConfig], as inferred from [DomainConfigSchema]: the three
    base URLs and the two lifetimes and the scopes always present (the
    schema fills in their defaults), the two keys optional. *)
Module DomainConfig.
Record t : Type := Build {
  searchBaseUrl : string;
  ingestionBaseUrl : string;
  eventsBaseUrl : string;
  apiKey : option string;
  clientKey : option string;
  accessTokenExpiry : Z;
  refreshTokenExpiry : Z;
  authScopes : list AuthScope
}.
End DomainConfig.

(** [type Config].  The record [domains] is read at the keys it owns. *)
Module Config.
Record t : Type := Build {
  domains : gmap string DomainConfig.t;
  defaultDomain : option string
}.
End Config.

(** [a || b] on values of type [string | undefined]. *)
Definition orElse (a b : option string) : option string :=
  if truthy_opt a then a else b.

(** An exception [new Error(message)], by its message. *)
Definition Thrown : Type := string.

Definition noDomainMessage : string :=
  "No domain ID provided and no default domain configured".

(** [getDomainConfig] *)
Definition getDomainConfig (config : Config.t) (domainId : option string)
    : Thrown + DomainConfig.t :=
  let targetDomain := orElse domainId (Config.defaultDomain config) in
  match targetDomain with
  | Some target =>
      if truthy target then
        match Config.domains config !! target with
        | Some domainConfig => inr domainConfig
        | None => inl ("Domain configuration not found for: " +:+ target)
        end
      else inl noDomainMessage
  | None => inl noDomainMessage
  end.

(** ** The server's registries: [src/index.ts] *)

Inductive Api : Type := SearchApi | IngestionApi | EventsApi.

#[global] Instance Api_eq_dec : EqDecision Api.
Proof. solve_decision. Defined.

(** A [BaseClient]: the base URL given to axios, the logger context and
    the [AuthManager] it asks for headers.  The manager is an object
    shared with the registry [authManagers]; it is designated by the key
    it is registered under there. *)
Record Client : Type := Build_Client {
  baseURL : string;
  context : string;
  authManager : option string
}.

(** The instance state of [class SitecoreSearchServer] that the lookups
    use: the configuration and the four maps. *)
Record SitecoreSearchServer : Type := Build_SitecoreSearchServer {
  config : Config.t;
  searchClients : gmap string Client;
  ingestionClients : gmap string Client;
  eventsClients : gmap string Client;
  authManagers : gmap string AuthManager
}.

Definition new_SitecoreSearchServer (cfg : Config.t) : SitecoreSearchServer :=
  Build_SitecoreSearchServer cfg ∅ ∅ ∅ ∅.

Definition set_authManagers (ms : gmap string AuthManager) (s : SitecoreSearchServer)
    : SitecoreSearchServer :=
  Build_SitecoreSearchServer (config s) (searchClients s) (ingestionClients s)
    (eventsClients s) ms.

(** [getAuthManager]: the state afterwards, and the exception thrown or
    the manager returned ([None] for [undefined]). *)
Definition getAuthManager (domainId : option string) (s : SitecoreSearchServer)
    : SitecoreSearchServer * (Thrown + option string) :=
  match orElse domainId (Config.defaultDomain (config s)) with
  | Some domain =>
      if truthy domain then
        match getDomainConfig (config s) (Some domain) with
        | inl e => (s, inl e)
        | inr domainConfig =>
            if truthy_opt (DomainConfig.apiKey domainConfig) then
              match authManagers s !! domain with
              | Some _ => (s, inr (Some domain))
              | None =>
                  (set_authManagers
                     (<[domain := new_AuthManager (DomainConfig.apiKey domainConfig)
                                    (DomainConfig.authScopes domainConfig)
                                    (DomainConfig.accessTokenExpiry domainConfig)
                                    (DomainConfig.refreshTokenExpiry domainConfig)]>
                        (authManagers s)) s,
                   inr (Some domain))
              end
            else (s, inr None)
        end
      else (s, inl noDomainMessage)
  | None => (s, inl noDomainMessage)
  end.

(** The map, the base URL and the logger context of each kind of client. *)
Definition clients (k : Api) (s : SitecoreSearchServer) : gmap string Client :=
  match k with
  | SearchApi => searchClients s
  | IngestionApi => ingestionClients s
  | EventsApi => eventsClients s
  end.

Definition set_clients (k : Api) (cs : gmap string Client) (s : SitecoreSearchServer)
    : SitecoreSearchServer :=
  match k with
  | SearchApi =>
      Build_SitecoreSearchServer (config s) cs (ingestionClients s) (eventsClients s)
        (authManagers s)
  | IngestionApi =>
      Build_SitecoreSearchServer (config s) (searchClients s) cs (eventsClients s)
        (authManagers s)
  | EventsApi =>
      Build_SitecoreSearchServer (config s) (searchClients s) (ingestionClients s) cs
        (authManagers s)
  end.

Definition baseUrlOf (k : Api) (domainConfig : DomainConfig.t) : string :=
  match k with
  | SearchApi => DomainConfig.searchBaseUrl domainConfig
  | IngestionApi => DomainConfig.ingestionBaseUrl domainConfig
  | EventsApi => DomainConfig.eventsBaseUrl domainConfig
  end.

Definition contextOf (k : Api) : string :=
  match k with
  | SearchApi => "SearchClient"
  | IngestionApi => "IngestionClient"
  | EventsApi => "EventsClient"
  end.

(** [getSearchClient], [getIngestionClient] and [getEventsClient]: one
    body, up to the map, the base URL and the class of the client.  The
    result is the exception thrown or the key of the client returned. *)
Definition getClient (k : Api) (domainId : option string) (s : SitecoreSearchServer)
    : SitecoreSearchServer * (Thrown + string) :=
  match orElse domainId (Config.defaultDomain (config s)) with
  | Some domain =>
      if truthy domain then
        match clients k s !! domain with
        | Some _ => (s, inr domain)
        | None =>
            match getDomainConfig (config s) (Some domain) with
            | inl e => (s, inl e)
            | inr domainConfig =>
                match getAuthManager (Some domain) s with
                | (s', inl e) => (s', inl e)
                | (s', inr manager) =>
                    (set_clients k
                       (<[domain := Build_Client (baseUrlOf k domainConfig) (contextOf k)
                                      manager]> (clients k s')) s',
                     inr domain)
                end
            end
        end
      else (s, inl noDomainMessage)
  | None => (s, inl noDomainMessage)
  end.

Definition getSearchClient := getClient SearchApi.
Definition getIngestionClient := getClient IngestionApi.
Definition getEventsClient := getClient EventsApi.

(** [getClientKey] *)
Definition getClientKey (domainId : option string) (s : SitecoreSearchServer)
    : Thrown + string :=
  match orElse domainId (Config.defaultDomain (config s)) with
  | Some domain =>
      if truthy domain then
        match getDomainConfig (config s) (Some domain) with
        | inl e => inl e
        | inr domainConfig =>
            match DomainConfig.clientKey domainConfig with
            | Some key =>
                if truthy key then inr key
                else inl ("Client key not configured for domain: " +:+ domain +:+
                          ". Please set SITECORE_CLIENT_KEY in your environment.")
            | None =>
                inl ("Client key not configured for domain: " +:+ domain +:+
                     ". Please set SITECORE_CLIENT_KEY in your environment.")
            end
        end
      else inl noDomainMessage
  | None => inl noDomainMessage
  end.

(** What happens on a server between two tool calls, as far as the
    registries are concerned: a lookup of a manager, of a client or of a
    client key, or one turn of the scheduler of a registered manager
    (its clients asking for headers, the endpoint answering). *)
Inductive ServerOp : Type :=
| LookupAuthManager (domainId : option string)
| LookupClient (k : Api) (domainId : option string)
| ManagerTurn (domain : string) (ev : Event).

Definition perform (s : SitecoreSearchServer) (op : ServerOp) : SitecoreSearchServer :=
  match op with
  | LookupAuthManager domainId => (getAuthManager domainId s).1
  | LookupClient k domainId => (getClient k domainId s).1
  | ManagerTurn domain ev =>
      match authManagers s !! domain with
      | Some m =>
          match step m ev with
          | Some m' => set_authManagers (<[domain := m']> (authManagers s)) s
          | None => s
          end
      | None => s
      end
  end.

Definition serve (s : SitecoreSearchServer) (ops : list ServerOp) : SitecoreSearchServer :=
  foldl perform s ops.

(** The manager registered under [domain] was built from the
    configuration of that domain, which has a secret. *)
Definition managerOf (cfg : Config.t) (domain : string) (m : AuthManager) : Prop :=
  ∃ dc, Config.domains cfg !! domain = Some dc ∧
        truthy_opt (DomainConfig.apiKey dc) = true ∧
        apiKey m = DomainConfig.apiKey dc ∧
        scopes m = DomainConfig.authScopes dc ∧
        accessTokenExpiry m = DomainConfig.accessTokenExpiry dc ∧
        refreshTokenExpiry m = DomainConfig.refreshTokenExpiry dc ∧
        reachable m.

(** The client registered under [domain] for the API [k] was built from
    the configuration of that domain, and holds the manager of the
    domain when the domain has a secret, none otherwise. *)
Definition clientOf (s : SitecoreSearchServer) (k : Api) (domain : string) (c : Client)
    : Prop :=
  ∃ dc, Config.domains (config s) !! domain = Some dc ∧
        baseURL c = baseUrlOf k dc ∧ context c = contextOf k ∧
        authManager c =
          (if truthy_opt (DomainConfig.apiKey dc) then Some domain else None) ∧
        (truthy_opt (DomainConfig.apiKey dc) = true → is_Some (authManagers s !! domain)).

Definition consistent (s : SitecoreSearchServer) : Prop :=
  (∀ domain m, authManagers s !! domain = Some m → managerOf (config s) domain m) ∧
  (∀ k domain c, clients k s !! domain = Some c → clientOf s k domain c).

(** A configuration used as concrete instance: a domain with a secret
    and every scope, which is the default domain, and a domain without
    secret. *)
Definition prodDomain : DomainConfig.t :=
  DomainConfig.Build "https://discover.sitecorecloud.io" "https://discover.sitecorecloud.io"
    "https://discover.sitecorecloud.io" (Some "01-XXXX") (Some "123-456")
    86400000 604800000 default_scopes.

Definition openDomain : DomainConfig.t :=
  DomainConfig.Build "https://discover.sitecorecloud.io" "https://discover.sitecorecloud.io"
    "https://discover.sitecorecloud.io" None None 86400000 604800000 default_scopes.

Definition fleet : Config.t :=
  Config.Build (<["prod" := prodDomain]> (<["open" := openDomain]> ∅)) (Some "prod").

(** ** Tools and clients: what they send *)

(** A JavaScript value of the kind [JSON.parse] produces. *)
#[local] Unset Elimination Schemes.
Inductive Json : Type :=
| JNull
| JBool (b : bool)
| JNumber (n : Z)
| JString (s : string)
| JArray (items : list Json)
| JObject (fields : list (string * Json)).
#[local] Set Elimination Schemes.

Inductive Method : Type := HttpGet | HttpPost | HttpPut | HttpPatch | HttpDelete.

(** A call made through the methods of [BaseClient]: the verb, the URL
    (relative to the base URL of the client) and the body. *)
Record HttpCall (B : Type) : Type := Build_HttpCall {
  method : Method;
  url : string;
  body : B
}.
Arguments Build_HttpCall {B} method url body.
Arguments method {B} h.
Arguments url {B} h.
Arguments body {B} h.


Record Locale : Type := Build_Locale {
  language : option string;
  country : option string
}.




(** [type BasicSearchInput]: what [validateInput] returns for
    [BasicSearchSchema]; [page] and [limit] are numbers, the schema
    having put 1 and 24 where they were missing. *)
Module BasicSearchInput.
Record t : Type := Build {
  domainId : string;
  rfkId : string;
  keyphrase : option string;
  entity : option string;
  page : Z;
  limit : Z;
  locale : option Locale
}.
End BasicSearchInput.


(** [type EventType] *)
Module EventType.
Inductive t : Type :=
| view | click | add | remove | identify | order | download | bookmark | review
| widget | request.
End EventType.

(** The [context] member of the input of the event tools. *)
Record EventContext : Type := Build_EventContext {
  contextUser : option Json;
  contextPage : option Json;
  contextBrowser : option Json;
  contextGeo : option Json
}.

(** [type TrackEventInput]: what [validateInput] returns for
    [TrackEventSchema]. *)
Module TrackEventInput.
Record t : Type := Build {
  domainId : option string;
  customerKey : option string;
  eventType : EventType.t;
  value : option Json;
  context : option EventContext
}.
End TrackEventInput.

(** [interface EventPayload] *)
Module EventPayload.
Record t : Type := Build {
  event : EventType.t;
  value : option Json;
  browser : option Json;
  geo : option Json;
  page : option Json;
  user : option Json
}.
End EventPayload.

Definition customerKeyRequired : string :=
  "Customer key is required. Either configure SITECORE_CLIENT_KEY or provide customerKey parameter.".

(** [trackEvent] of [tools/events/track-event.ts], from the validated
    parameters on, down to the call [EventsClient.trackEvent] makes. *)
Definition trackEvent (customerKey : string) (params : TrackEventInput.t)
    : Thrown + HttpCall EventPayload.t :=
  match orElse (TrackEventInput.customerKey params) (Some customerKey) with
  | Some finalCustomerKey =>
      if truthy finalCustomerKey then
        inr (Build_HttpCall HttpPost ("/event/v4/publish/" +:+ finalCustomerKey)
               {| EventPayload.event := TrackEventInput.eventType params;
                  EventPayload.value := TrackEventInput.value params;
                  EventPayload.user := TrackEventInput.context params ≫= contextUser;
                  EventPayload.page := TrackEventInput.context params ≫= contextPage;
                  EventPayload.browser := TrackEventInput.context params ≫= contextBrowser;
                  EventPayload.geo := TrackEventInput.context params ≫= contextGeo |})
      else inl customerKeyRequired
  | None => inl customerKeyRequired
  end.

(** The case [trackEventTool.name] of the tool-call handler, for valid
    arguments: the client key of the domain is fetched first, then the
    events client, then the tool runs.  The result is the exception
    caught by the handler, or the call made and the client making it. *)
Definition callTrackEvent (params : TrackEventInput.t) (s : SitecoreSearchServer)
    : SitecoreSearchServer * (Thrown + string * HttpCall EventPayload.t) :=
  match getClientKey (TrackEventInput.domainId params) s with
  | inl e => (s, inl e)
  | inr clientKey =>
      match getEventsClient (TrackEventInput.domainId params) s with
      | (s', inl e) => (s', inl e)
      | (s', inr client) =>
          match trackEvent clientKey params with
          | inl e => (s', inl e)
          | inr call => (s', inr (client, call))
          end
      end
  end.

(** ** Errors: [src/utils/errors.ts] *)








(** * Facts *)

Example scenario_first_call :
  getAuthHeader 0 scenario = (generating, Awaits 0).
Proof. reflexivity. Qed.

(** ** Basic facts about the operations *)

Lemma truthy_spec (s : string) : truthy s = true ↔ s ≠ "".
Proof.
  unfold truthy. destruct (String.eqb_spec s ""); simpl; split; congruence.
Qed.

Lemma isAccessTokenValid_spec (now : Z) (m : AuthManager) :
  isAccessTokenValid now m = true ↔
  ∃ ts, tokenStorage m = Some ts ∧ (now < accessTokenExpiresAt ts - 60000)%Z.
Proof.
  unfold isAccessTokenValid. destruct (tokenStorage m) as [ts|].
  - rewrite Z.ltb_lt. split; [eauto | intros (ts' & [= <-] & H); exact H].
  - split; [discriminate | intros (ts & [=] & _)].
Qed.

Lemma isRefreshTokenValid_spec (now : Z) (m : AuthManager) :
  isRefreshTokenValid now m = true ↔
  ∃ ts, tokenStorage m = Some ts ∧ (now < refreshTokenExpiresAt ts)%Z.
Proof.
  unfold isRefreshTokenValid. destruct (tokenStorage m) as [ts|].
  - rewrite Z.ltb_lt. split; [eauto | intros (ts' & [= <-] & H); exact H].
  - split; [discriminate | intros (ts & [=] & _)].
Qed.

Lemma starts_pending (now : Z) (m : AuthManager) a rs : starts now m a rs → pending a.
Proof. destruct 1; exact I. Qed.

(** The four branches of [getAccessToken]. *)
Lemma getAccessToken_branches (now : Z) (m : AuthManager) :
  (∃ p, tokenRefreshPromise m = Some p ∧ getAccessToken now m = (m, Promise p)) ∨
  (∃ ts, tokenRefreshPromise m = None ∧ tokenStorage m = Some ts ∧
         isAccessTokenValid now m = true ∧
         getAccessToken now m = (m, Value (Some (accessToken ts)))) ∨
  (∃ a rs, tokenRefreshPromise m = None ∧ starts now m a rs ∧
           getAccessToken now m = (launched m a rs, Promise (length (promises m)))).
Proof.
  unfold getAccessToken.
  destruct (tokenRefreshPromise m) as [p|] eqn:Hp; [left; eauto|].
  right.
  assert (Hgen : isAccessTokenValid now m = false → isRefreshTokenValid now m = false →
    ∃ a rs, None = None :> option nat ∧ starts now m a rs ∧
      track (generateTokensFromApiKey m) = (launched m a rs, Promise (length (promises m)))).
  { intros Ha Hr. unfold generateTokensFromApiKey.
    destruct (apiKey m) as [k|] eqn:Hk; [destruct (truthy k) eqn:Ht|].
    - eexists _, _. split; [done|]. split; [eapply starts_generation; eauto|].
      reflexivity.
    - eexists _, _. split; [done|]. split; [apply starts_nothing; auto; by rewrite Hk|].
      unfold track, launched; simpl. by rewrite app_nil_r.
    - eexists _, _. split; [done|]. split; [apply starts_nothing; auto; by rewrite Hk|].
      unfold track, launched; simpl. by rewrite app_nil_r. }
  destruct (tokenStorage m) as [ts|] eqn:Hts.
  - destruct (isAccessTokenValid now m) eqn:Ha; [left; eauto|].
    right. destruct (isRefreshTokenValid now m) eqn:Hr; [|by apply Hgen].
    unfold refreshAccessToken. rewrite Hts.
    eexists _, _. split; [done|]. split; [eapply starts_refresh; eauto|].
    reflexivity.
  - right. apply Hgen; unfold isAccessTokenValid, isRefreshTokenValid; by rewrite Hts.
Qed.

(** [getAuthHeader] on a manager that uses tokens is [getAccessToken]
    followed by the choice of the header. *)
Lemma getAuthHeader_usesTokens (now : Z) (m : AuthManager) key :
  apiKey m = Some key → truthy key = true → ingestionOnly m = false →
  getAuthHeader now m =
    match getAccessToken now m with
    | (m', Value token) => (m', Returns (headerOfToken key token))
    | (m', Promise p) => (m', Awaits p)
    end.
Proof. intros Hk Ht Hi. unfold getAuthHeader. by rewrite Hk, Ht, Hi. Qed.

(** A call either leaves the manager as it is or starts one acquisition. *)
Lemma getAuthHeader_state (now : Z) (m : AuthManager) :
  (getAuthHeader now m).1 = m ∨
  ∃ a rs, tokenRefreshPromise m = None ∧ starts now m a rs ∧ usesTokens m ∧
          getAuthHeader now m = (launched m a rs, Awaits (length (promises m))).
Proof.
  unfold getAuthHeader.
  destruct (apiKey m) as [key|] eqn:Hk; [|by left].
  destruct (truthy key) eqn:Ht; simpl; [|by left].
  destruct (ingestionOnly m) eqn:Hi; [by left|].
  destruct (getAccessToken_branches now m) as
    [(p & _ & ->) | [(ts & _ & _ & _ & ->) | (a & rs & Hp & Hs & ->)]]; [by left..|].
  right. exists a, rs. repeat split; auto. by exists key.
Qed.

(** ** Invariants of the scheduler *)

Lemma fits_mono (T T' : Z) s a : (T ≤ T')%Z → fits T s a → fits T' s a.
Proof.
  intros HT. destruct a as [[]|[]|]; simpl; unfold stale; try done;
    intros H ts Hts; specialize (H ts Hts); lia.
Qed.

Lemma fits_None (T : Z) a : fits T None a.
Proof. destruct a as [[]|[]|]; simpl; unfold stale; done. Qed.

Lemma invalid_stale (now : Z) (m : AuthManager) :
  isAccessTokenValid now m = false → isRefreshTokenValid now m = false →
  stale now (tokenStorage m).
Proof.
  unfold isAccessTokenValid, isRefreshTokenValid, stale.
  intros Ha Hr ts Hts. rewrite Hts in Ha, Hr.
  apply Z.ltb_ge in Ha, Hr. lia.
Qed.

Lemma starts_fits (now : Z) (m : AuthManager) a rs :
  starts now m a rs → fits now (tokenStorage m) a.
Proof.
  destruct 1 as [ts Hts Ha Hr | key Hk Ht Ha Hr | Hk Ha Hr]; simpl.
  - intros ts' Hts'. unfold isAccessTokenValid in Ha. rewrite Hts' in Ha.
    by apply Z.ltb_ge in Ha.
  - by apply invalid_stale.
  - by apply invalid_stale.
Qed.

(** Two outstanding acquisitions are one and the same. *)
Lemma coalesced_unique (m : AuthManager) p q :
  coalesced m → outstanding m p → outstanding m q → p = q.
Proof.
  intros Hc Hp Hq. apply Hc in Hp, Hq. congruence.
Qed.

Lemma coalesced_new key sc ae re : coalesced (new_AuthManager key sc ae re).
Proof.
  intros p. split; [intros (a & Ha & _); done | done].
Qed.

Lemma timely_new (T : Z) key sc ae re : timely T (new_AuthManager key sc ae re).
Proof. intros p a Ha. done. Qed.

Lemma launched_coalesced (now : Z) (m : AuthManager) a rs :
  coalesced m → tokenRefreshPromise m = None → starts now m a rs →
  coalesced (launched m a rs).
Proof.
  intros Hc Hnone Hs p. unfold outstanding; simpl. split.
  - intros (a' & Ha' & Hpend).
    destruct (decide (p < length (promises m))) as [Hlt|Hge].
    + rewrite lookup_app_l in Ha' by done.
      assert (tokenRefreshPromise m = Some p) by (apply Hc; by exists a').
      congruence.
    + apply lookup_lt_Some in Ha'. rewrite length_app in Ha'. simpl in Ha'.
      f_equal. lia.
  - intros [= <-]. exists a. split; [|by eapply starts_pending].
    rewrite lookup_app_r by done. by rewrite Nat.sub_diag.
Qed.

(** Replacing a pending phase of [p] by another pending phase. *)
Lemma advance_coalesced (m m' : AuthManager) p a a' :
  coalesced m → promises m !! p = Some a → pending a → pending a' →
  promises m' = <[p := a']> (promises m) →
  tokenRefreshPromise m' = tokenRefreshPromise m →
  coalesced m'.
Proof.
  intros Hc Hp Ha Ha' Hps Hmk q. rewrite Hmk, <- (Hc q).
  unfold outstanding. rewrite Hps.
  destruct (decide (q = p)) as [->|Hne].
  - rewrite list_lookup_insert_eq by (by eapply lookup_lt_Some).
    split; intros _; eauto.
  - by rewrite list_lookup_insert_ne.
Qed.

Lemma generation_resume_frame resp now (m : AuthManager) :
  let m' := (generateTokensFromApiKey_resume resp now m).1 in
  promises m' = promises m ∧ tokenRefreshPromise m' = tokenRefreshPromise m ∧
  requests m' = requests m.
Proof. by destruct resp. Qed.

Lemma refresh_resume_frame resp now (m : AuthManager) :
  let m' := (refreshAccessToken_resume resp now m).1 in
  promises m' = promises m ∧ tokenRefreshPromise m' = tokenRefreshPromise m ∧
  requests m' = requests m.
Proof.
  unfold refreshAccessToken_resume. destruct resp; [done|].
  by destruct (tokenStorage m).
Qed.

Lemma step_coalesced (m m' : AuthManager) ev :
  coalesced m → step m ev = Some m' → coalesced m'.
Proof.
  intros Hc Hstep. destruct ev as [now | p resp now | p resp now | p |]; simpl in Hstep.
  - injection Hstep as <-.
    destruct (getAuthHeader_state now m) as [-> | (a & rs & Hnone & Hs & _ & ->)]; [done|].
    by eapply launched_coalesced.
  - destruct (promises m !! p) as [[[]|?|?]|] eqn:Hp; try done.
    injection Hstep as <-.
    destruct (generation_resume_frame resp now m) as (Hps & Hmk & _).
    eapply (advance_coalesced m _ p _ (Completed _)); eauto; try exact I.
    unfold complete; simpl. by rewrite Hps.
  - destruct (promises m !! p) as [[[]|?|?]|] eqn:Hp; try done.
    injection Hstep as <-.
    destruct (refresh_resume_frame resp now m) as (Hps & Hmk & _).
    eapply (advance_coalesced m _ p _ (Completed _)); eauto; try exact I.
    unfold complete; simpl. by rewrite Hps.
  - destruct (promises m !! p) as [[?|r|?]|] eqn:Hp; try done.
    injection Hstep as <-. intros q. unfold outstanding; simpl.
    split; [|done]. intros (a & Ha & Hpend). exfalso.
    destruct (decide (q = p)) as [->|Hne].
    + rewrite list_lookup_insert_eq in Ha by (by eapply lookup_lt_Some).
      by injection Ha as <-.
    + rewrite list_lookup_insert_ne in Ha by done.
      apply Hne. apply (coalesced_unique m); [done|by exists a|].
      by exists (Completed r).
  - injection Hstep as <-. exact Hc.
Qed.

Lemma run_coalesced (evs : list Event) (m m' : AuthManager) :
  coalesced m → run m evs = Some m' → coalesced m'.
Proof.
  revert m. induction evs as [|ev evs IH]; intros m Hc Hrun; simpl in Hrun.
  - by injection Hrun as <-.
  - destruct (step m ev) as [m1|] eqn:Hstep; [|done].
    eapply IH; [|exact Hrun]. by eapply step_coalesced.
Qed.

(** When the body of [p] completes, [p] is the only acquisition whose phase
    constrains the storage. *)
Lemma complete_timely (T now : Z) (m : AuthManager) p k (done : AuthManager * Settled string) :
  coalesced m → promises m !! p = Some (Requesting k) →
  promises done.1 = promises m →
  fits now (tokenStorage done.1) (Completed done.2) →
  timely now (complete p done).
Proof.
  intros Hc Hp Hps Hfit q a. unfold complete; simpl. rewrite Hps.
  destruct (decide (q = p)) as [->|Hne].
  - rewrite list_lookup_insert_eq by (by eapply lookup_lt_Some).
    by intros [= <-].
  - rewrite list_lookup_insert_ne by done. intros Hq.
    destruct a as [k'|r|r]; [exfalso; apply Hne..|exact I].
    + eapply coalesced_unique; eauto; eexists; split; eauto; exact I.
    + eapply coalesced_unique; eauto; eexists; split; eauto; exact I.
Qed.

Lemma step_timely (T : Z) (m m' : AuthManager) ev :
  coalesced m → timely T m →
  (∀ t, time_of ev = Some t → (T ≤ t)%Z) →
  step m ev = Some m' →
  timely (default T (time_of ev)) m'.
Proof.
  intros Hc Ht Hclock Hstep.
  destruct ev as [now | p resp now | p resp now | p |]; simpl in *.
  - injection Hstep as <-. specialize (Hclock now eq_refl).
    destruct (getAuthHeader_state now m) as [-> | (a & rs & Hnone & Hs & _ & ->)].
    + intros q a Hq. eapply fits_mono; eauto.
    + intros q a' Hq; simpl in *.
      destruct (decide (q < length (promises m))) as [Hlt|Hge].
      * rewrite lookup_app_l in Hq by done. eapply fits_mono; eauto.
      * rewrite lookup_app_r in Hq by lia.
        destruct (q - length (promises m)) as [|n]; simpl in Hq; [|done].
        injection Hq as <-. by eapply starts_fits.
  - destruct (promises m !! p) as [[[]|?|?]|] eqn:Hp; try done.
    injection Hstep as <-. specialize (Hclock now eq_refl).
    destruct (generation_resume_frame resp now m) as (Hps & _).
    eapply complete_timely; eauto.
    destruct resp as [e|data]; simpl.
    + eapply (fits_mono T now _ (Requesting Generation)); eauto.
    + by intros ts [= <-].
  - destruct (promises m !! p) as [[[]|?|?]|] eqn:Hp; try done.
    injection Hstep as <-.
    destruct (refresh_resume_frame resp now m) as (Hps & _).
    eapply complete_timely; eauto.
    unfold refreshAccessToken_resume.
    destruct resp as [e|data]; simpl; [by intros ts|].
    destruct (tokenStorage m) as [ts|]; simpl; [|by intros ts].
    by intros ts' [= <-].
  - destruct (promises m !! p) as [[?|r|?]|] eqn:Hp; try done.
    injection Hstep as <-. intros q a; simpl.
    destruct (decide (q = p)) as [->|Hne].
    + rewrite list_lookup_insert_eq by (by eapply lookup_lt_Some).
      by intros [= <-].
    + rewrite list_lookup_insert_ne by done. apply Ht.
  - injection Hstep as <-. intros q a _. apply fits_None.
Qed.

Lemma monotone_cons (T : Z) ev (evs : list Event) :
  monotone T (ev :: evs) →
  (∀ t, time_of ev = Some t → (T ≤ t)%Z) ∧ monotone (default T (time_of ev)) evs.
Proof.
  simpl. destruct (time_of ev) as [t|]; simpl.
  - intros [HT Hm]. split; [by intros t' [= <-] | done].
  - intros Hm. split; [done | done].
Qed.

Lemma run_timely (evs : list Event) (T : Z) (m m' : AuthManager) :
  coalesced m → timely T m → monotone T evs → run m evs = Some m' →
  timely (clock_after T evs) m'.
Proof.
  revert T m. induction evs as [|ev evs IH]; intros T m Hc Ht Hmono Hrun.
  - simpl in *. by injection Hrun as <-.
  - apply monotone_cons in Hmono as [Hclock Hmono].
    cbn [run] in Hrun. destruct (step m ev) as [m1|] eqn:Hstep; [|done].
    cbn [clock_after]. eapply IH; [| |exact Hmono|exact Hrun].
    + by eapply step_coalesced.
    + by eapply step_timely.
Qed.

Lemma reachable_coalesced (m : AuthManager) : reachable m → coalesced m.
Proof.
  intros (key & sc & ae & re & evs & Hrun).
  eapply run_coalesced; [apply coalesced_new | exact Hrun].
Qed.

Lemma reachable_by_reachable (T : Z) (m : AuthManager) : reachable_by T m → reachable m.
Proof. intros (key & sc & ae & re & T0 & evs & _ & Hrun & _). by exists key, sc, ae, re, evs. Qed.

Lemma reachable_by_timely (T : Z) (m : AuthManager) : reachable_by T m → timely T m.
Proof.
  intros (key & sc & ae & re & T0 & evs & Hmono & Hrun & Hle) p a Hp.
  eapply fits_mono; [exact Hle|].
  eapply run_timely; eauto using coalesced_new, timely_new.
Qed.

Lemma step_same_config (m m' : AuthManager) ev : step m ev = Some m' → same_config m m'.
Proof.
  intros Hstep. destruct ev as [now | p resp now | p resp now | p |]; simpl in Hstep.
  - injection Hstep as <-.
    destruct (getAuthHeader_state now m) as [-> | (a & rs & _ & _ & _ & ->)]; by repeat split.
  - destruct (promises m !! p) as [[[]|?|?]|]; try done.
    injection Hstep as <-. by destruct resp.
  - destruct (promises m !! p) as [[[]|?|?]|]; try done.
    injection Hstep as <-. unfold refreshAccessToken_resume.
    destruct resp; [done|]. by destruct (tokenStorage m).
  - destruct (promises m !! p) as [[?|?|?]|]; try done. by injection Hstep as <-.
  - by injection Hstep as <-.
Qed.

Lemma run_same_config (evs : list Event) (m m' : AuthManager) :
  run m evs = Some m' → same_config m m'.
Proof.
  revert m. induction evs as [|ev evs IH]; intros m Hrun; simpl in Hrun.
  - by injection Hrun as <-.
  - destruct (step m ev) as [m1|] eqn:Hstep; [|done].
    destruct (step_same_config _ _ _ Hstep) as (H1 & H2 & H3 & H4).
    destruct (IH _ Hrun) as (G1 & G2 & G3 & G4).
    repeat split; congruence.
Qed.

Lemma usesTokens_awaits_marker (now : Z) (m : AuthManager) p :
  usesTokens m → tokenRefreshPromise m = Some p → getAuthHeader now m = (m, Awaits p).
Proof.
  intros (key & Hk & Ht & Hi) Hp.
  rewrite (getAuthHeader_usesTokens now m key Hk Ht Hi).
  unfold getAccessToken. by rewrite Hp.
Qed.

(** Any number of calls made while an acquisition is in flight leave the
    manager as it is, and each of them awaits the marked promise. *)
Lemma calls_while_in_flight (m : AuthManager) p (calls : list Z) :
  usesTokens m → tokenRefreshPromise m = Some p →
  run m (CallGetAuthHeader <$> calls) = Some m ∧
  Forall (λ now, getAuthHeader now m = (m, Awaits p)) calls.
Proof.
  intros Hu Hp. induction calls as [|now calls [IHrun IHall]]; [done|].
  pose proof (usesTokens_awaits_marker now m p Hu Hp) as Hcall.
  split; [|by constructor].
  cbn [fmap list_fmap run step]. by rewrite Hcall.
Qed.

(** * The claims *)

(** C2. Whatever the interleaving of calls, answers, cleanups and clears
    that leads a manager to its present state: at most one acquisition is
    outstanding; the in-flight marker is set exactly while one is; a
    caller arriving meanwhile is handed that same pending promise and
    sends nothing, and so are arbitrarily many callers in a row; a call
    that does send a request found no acquisition outstanding; the
    exchange on the wire can be answered by a success or by a failure,
    and either way its cleanup then runs and leaves the marker cleared
    and nothing outstanding. *)
Theorem single_acquisition_in_flight (m : AuthManager) :
  reachable m →
  (∀ p q, outstanding m p → outstanding m q → p = q) ∧
  (∀ p, tokenRefreshPromise m = Some p ↔ outstanding m p) ∧
  (∀ p now, tokenRefreshPromise m = Some p → usesTokens m →
     getAuthHeader now m = (m, Awaits p)) ∧
  (∀ p (calls : list Z), tokenRefreshPromise m = Some p → usesTokens m →
     run m (CallGetAuthHeader <$> calls) = Some m ∧
     Forall (λ now, (getAuthHeader now m).2 = Awaits p) calls) ∧
  (∀ now p, requests (getAuthHeader now m).1 ≠ requests m → ¬ outstanding m p) ∧
  (∀ p resp now, promises m !! p = Some (Requesting Generation) →
     ∃ m' r, step m (GenerationAnswers p resp now) = Some m' ∧
             promises m' !! p = Some (Completed r) ∧
             tokenRefreshPromise m' = Some p) ∧
  (∀ p resp now, promises m !! p = Some (Requesting Refresh) →
     ∃ m' r, step m (RefreshAnswers p resp now) = Some m' ∧
             promises m' !! p = Some (Completed r) ∧
             tokenRefreshPromise m' = Some p) ∧
  (∀ p r, promises m !! p = Some (Completed r) →
     ∃ m', step m (RunFinally p) = Some m' ∧
           promises m' !! p = Some (Finalised r) ∧
           tokenRefreshPromise m' = None ∧
           ∀ q, ¬ outstanding m' q).
Proof.
  intros Hreach. pose proof (reachable_coalesced m Hreach) as Hc.
  split; [intros p q; by apply coalesced_unique|].
  split; [intros p; symmetry; apply Hc|].
  split; [intros p now Hp Hu; by apply usesTokens_awaits_marker|].
  split.
  { intros p calls Hp Hu.
    destruct (calls_while_in_flight m p calls Hu Hp) as [Hrun Hall].
    split; [exact Hrun|]. eapply Forall_impl; [exact Hall|].
    by intros now ->. }
  split.
  { intros now p Hreq Hout.
    destruct (getAuthHeader_state now m) as [Heq | (a & rs & Hnone & _)].
    - by rewrite Heq in Hreq.
    - apply Hc in Hout. congruence. }
  split.
  { intros p resp now Hp. simpl. rewrite Hp. eexists _, _. split; [done|].
    destruct (generation_resume_frame resp now m) as (Hps & Hmk & _).
    unfold complete; simpl. rewrite Hps, Hmk. split.
    - apply list_lookup_insert_eq. by eapply lookup_lt_Some.
    - apply Hc. by exists (Requesting Generation). }
  split.
  { intros p resp now Hp. simpl. rewrite Hp. eexists _, _. split; [done|].
    destruct (refresh_resume_frame resp now m) as (Hps & Hmk & _).
    unfold complete; simpl. rewrite Hps, Hmk. split.
    - apply list_lookup_insert_eq. by eapply lookup_lt_Some.
    - apply Hc. by exists (Requesting Refresh). }
  intros p r Hp.
  assert (Hstep : step m (RunFinally p) =
    Some (set_tokenRefreshPromise None (set_promises (<[p := Finalised r]> (promises m)) m)))
    by (simpl; by rewrite Hp).
  eexists. split; [exact Hstep|]. split; [|split; [done|]].
  - simpl. apply list_lookup_insert_eq. by eapply lookup_lt_Some.
  - intros q Hq. apply (step_coalesced _ _ _ Hc Hstep) in Hq. done.
Qed.

Lemma single_acquisition_in_flight_witness :
  reachable generating ∧ getAuthHeader 500 generating = (generating, Awaits 0).
Proof.
  assert (H : reachable generating)
    by (exists (Some "01-XXXX"), default_scopes, 1000%Z, 5000%Z, [CallGetAuthHeader 0];
        reflexivity).
  split; [exact H|].
  apply (single_acquisition_in_flight generating H); [reflexivity|].
  exists "01-XXXX". repeat split; reflexivity.
Defined.

Lemma holding_reachable : reachable_by 0 holding.
Proof.
  exists (Some "01-XXXX"), default_scopes, 86400000%Z, 604800000%Z, 0%Z,
    [CallGetAuthHeader 0; GenerationAnswers 0 (granted "A1" "R1" 86400000 604800000) 0;
     RunFinally 0].
  repeat split; simpl; lia.
Qed.

(** C5. At every instant and in every state the access token is judged
    valid exactly when a pair is stored and the instant is strictly before
    the access expiry minus 60000 ms, and the refresh token exactly when a
    pair is stored and the instant is strictly before the refresh expiry.
    When the access token is valid, obtaining a token sends no request;
    with no acquisition in flight it hands back the cached access token
    at once and leaves the manager as it is; and in a state reached under
    a clock that does not run backwards, a marker still set then belongs
    to an acquisition whose body has already produced that same cached
    token, so the caller receives it all the same. *)
Theorem validity_and_cached_reuse (now : Z) (m : AuthManager) :
  (isAccessTokenValid now m = true ↔
     ∃ ts, tokenStorage m = Some ts ∧ (now < accessTokenExpiresAt ts - 60000)%Z) ∧
  (isRefreshTokenValid now m = true ↔
     ∃ ts, tokenStorage m = Some ts ∧ (now < refreshTokenExpiresAt ts)%Z) ∧
  (∀ ts, tokenStorage m = Some ts → isAccessTokenValid now m = true →
     requests (getAccessToken now m).1 = requests m ∧
     (tokenRefreshPromise m = None →
        getAccessToken now m = (m, Value (Some (accessToken ts)))) ∧
     (∀ T p, reachable_by T m → (T ≤ now)%Z → tokenRefreshPromise m = Some p →
        getAccessToken now m = (m, Promise p) ∧
        promises m !! p = Some (Completed (Fulfilled (accessToken ts))))).
Proof.
  split; [apply isAccessTokenValid_spec|].
  split; [apply isRefreshTokenValid_spec|].
  intros ts Hts Hvalid.
  assert (Hlt : (now < accessTokenExpiresAt ts - 60000)%Z).
  { unfold isAccessTokenValid in Hvalid. rewrite Hts in Hvalid. by apply Z.ltb_lt. }
  split; [|split].
  - unfold getAccessToken. destruct (tokenRefreshPromise m); [done|].
    by rewrite Hts, Hvalid.
  - intros Hnone. unfold getAccessToken. by rewrite Hnone, Hts, Hvalid.
  - intros T p Hreach HT Hp.
    split; [unfold getAccessToken; by rewrite Hp|].
    pose proof (reachable_coalesced m (reachable_by_reachable T m Hreach)) as Hc.
    apply Hc in Hp as (a & Ha & Hpend).
    pose proof (reachable_by_timely T m Hreach p a Ha) as Hfit.
    rewrite Ha. destruct a as [[]|[v|e]|r]; simpl in Hfit, Hpend.
    + destruct (Hfit ts Hts). lia.
    + specialize (Hfit ts Hts). lia.
    + by rewrite (Hfit ts Hts).
    + destruct (Hfit ts Hts). lia.
    + done.
Qed.

Lemma validity_and_cached_reuse_witness :
  isAccessTokenValid 500 holding = true ∧
  getAccessToken 500 holding = (holding, Value (Some "A1")).
Proof.
  split; [reflexivity|].
  destruct (validity_and_cached_reuse 500 holding) as (_ & _ & Hreuse).
  apply (Hreuse (Build_TokenStorage "A1" "R1" 86400000 604800000)); reflexivity.
Defined.

(** C6. Take a stored pair whose access token is expired or inside the
    one-minute buffer while its refresh token is still valid, and no
    acquisition in flight.  The call sends exactly one request, the
    refresh PUT carrying the stored refresh token as bearer, and awaits
    it.  When that exchange succeeds at instant [t], the stored access
    token becomes the answered one, its expiry becomes [t] plus the
    configured access-token lifetime, and the refresh token and its
    expiry are what they were; the promise is fulfilled with the new
    access token and no further request has been sent. *)
Theorem refresh_replaces_access_token_only (now t : Z) (m : AuthManager)
    (ts : TokenStorage) (data : RefreshTokenResponse.t) :
  usesTokens m →
  tokenRefreshPromise m = None →
  tokenStorage m = Some ts →
  isAccessTokenValid now m = false →
  isRefreshTokenValid now m = true →
  let p := length (promises m) in
  let put := Put ("Bearer " +:+ refreshToken ts) in
  getAuthHeader now m = (launched m (Requesting Refresh) [put], Awaits p) ∧
  ∃ m', step (launched m (Requesting Refresh) [put]) (RefreshAnswers p (inr data) t) = Some m' ∧
        tokenStorage m' = Some (refreshed m ts data t) ∧
        refreshToken (refreshed m ts data t) = refreshToken ts ∧
        refreshTokenExpiresAt (refreshed m ts data t) = refreshTokenExpiresAt ts ∧
        accessToken (refreshed m ts data t) = RefreshTokenResponse.accessToken data ∧
        accessTokenExpiresAt (refreshed m ts data t) = (t + accessTokenExpiry m)%Z ∧
        promises m' !! p = Some (Completed (Fulfilled (RefreshTokenResponse.accessToken data))) ∧
        requests m' = requests m ++ [put].
Proof.
  intros (key & Hk & Ht & Hi) Hnone Hts Ha Hr p put. split.
  - rewrite (getAuthHeader_usesTokens now m key Hk Ht Hi).
    unfold getAccessToken. rewrite Hnone, Hts, Ha, Hr.
    unfold refreshAccessToken. by rewrite Hts.
  - simpl. rewrite lookup_app_r by done. rewrite Nat.sub_diag. simpl.
    eexists. split; [done|]. unfold refreshAccessToken_resume; simpl. rewrite Hts.
    repeat split. unfold complete; simpl.
    apply list_lookup_insert_eq. rewrite length_app; simpl; lia.
Qed.

Lemma refresh_replaces_access_token_only_witness :
  ∃ m', run holding [CallGetAuthHeader 86400000; RefreshAnswers 1 (renewed "A2") 86400500]
          = Some m' ∧
        tokenStorage m' = Some (Build_TokenStorage "A2" "R1" 172800500 604800000).
Proof.
  destruct (refresh_replaces_access_token_only 86400000 86400500 holding
              (Build_TokenStorage "A1" "R1" 86400000 604800000)
              (RefreshTokenResponse.Build "A2"))
    as (Hcall & m' & Hstep & Hts & _); try reflexivity.
  { exists "01-XXXX". repeat split; reflexivity. }
  exists m'. split; [|exact Hts].
  cbn [run step]. rewrite Hcall. exact Hstep.
Defined.

(** A manager for the ingestion API alone never leaves its initial state. *)
Lemma ingestion_manager_idle key ae re (evs : list Event) (m : AuthManager) :
  truthy key = true →
  run (new_AuthManager (Some key) [ingestion] ae re) evs = Some m →
  m = new_AuthManager (Some key) [ingestion] ae re.
Proof.
  intros Hk. remember (new_AuthManager (Some key) [ingestion] ae re) as m0 eqn:Hm0.
  assert (Hfix : ∀ ev m1, step m0 ev = Some m1 → m1 = m0).
  { intros ev m1 Hstep. subst m0.
    destruct ev as [now | p resp now | p resp now | p |]; simpl in Hstep;
      try done; injection Hstep as <-; [|done].
    unfold getAuthHeader; simpl. by rewrite Hk. }
  clear Hm0. induction evs as [|ev evs IH]; simpl; [by intros [= <-]|].
  destruct (step m0 ev) as [m1|] eqn:Hstep; [|done].
  rewrite (Hfix _ _ Hstep). exact IH.
Qed.

(** C7. A manager constructed with a secret and the one-element scope
    list [ingestion] answers every call, in every state it can reach,
    with the raw secret as the Authorization value, never a
    bearer-prefixed one, and never attempts an acquisition: it has sent
    no request, created no promise and stored no pair.  With more than
    one scope, ingestion among them or not, the special case does not
    apply: the header is decided by [getAccessToken]. *)
Theorem ingestion_only_uses_raw_secret (key : string) (sc : list AuthScope) (ae re : Z)
    (evs : list Event) (m : AuthManager) (now : Z) :
  key ≠ "" →
  run (new_AuthManager (Some key) sc ae re) evs = Some m →
  (sc = [ingestion] →
     getAuthHeader now m = (m, Returns {[ "Authorization" := key ]}) ∧
     requests m = [] ∧ promises m = [] ∧ tokenStorage m = None ∧
     tokenRefreshPromise m = None) ∧
  (1 < length sc →
     ingestionOnly m = false ∧
     getAuthHeader now m =
       match getAccessToken now m with
       | (m', Value token) => (m', Returns (headerOfToken key token))
       | (m', Promise p) => (m', Awaits p)
       end).
Proof.
  intros Hkey Hrun. apply truthy_spec in Hkey. split.
  - intros ->. apply ingestion_manager_idle in Hrun as ->; [|done].
    repeat split. unfold getAuthHeader; simpl. by rewrite Hkey.
  - intros Hlen. destruct (run_same_config _ _ _ Hrun) as (Hk & Hsc & _).
    simpl in Hk, Hsc.
    assert (Hi : ingestionOnly m = false).
    { unfold ingestionOnly. rewrite Hsc.
      replace (length sc =? 1) with false; [by rewrite andb_false_r|].
      symmetry. apply Nat.eqb_neq. lia. }
    split; [done|]. by apply getAuthHeader_usesTokens.
Qed.

Lemma ingestion_only_uses_raw_secret_witness :
  getAuthHeader 7
    (new_AuthManager (Some "01-XXXX") [ingestion] 1000 5000) =
    (new_AuthManager (Some "01-XXXX") [ingestion] 1000 5000,
     Returns {[ "Authorization" := "01-XXXX" ]}) ∧
  (getAuthHeader 7 (new_AuthManager (Some "01-XXXX") [discover; ingestion] 1000 5000)).2
    = Awaits 0.
Proof.
  split.
  - eapply (ingestion_only_uses_raw_secret "01-XXXX" [ingestion] 1000 5000
              [CallGetAuthHeader 3; CallClearTokens]); [done|reflexivity|reflexivity].
  - destruct (ingestion_only_uses_raw_secret "01-XXXX" [discover; ingestion] 1000 5000
                [] _ 7 ltac:(done) eq_refl) as [_ Hmany].
    destruct Hmany as [_ ->]; [simpl; lia | reflexivity].
Defined.

Lemma refreshing_reachable : reachable refreshing.
Proof.
  exists (Some "01-XXXX"), default_scopes, 86400000%Z, 604800000%Z,
    [CallGetAuthHeader 0; GenerationAnswers 0 (granted "A1" "R1" 86400000 604800000) 0;
     RunFinally 0; CallGetAuthHeader 86400000].
  reflexivity.
Qed.

(** C10. [clearTokens] resets the stored pair and nothing else: the
    in-flight marker, the promises, the requests sent and the
    configuration are what they were.  So when it runs while an
    acquisition is outstanding, the next call awaits that pre-clear
    promise and sends nothing; and a refresh on the wire that is then
    answered successfully finds no storage to write through, leaves the
    storage absent and completes rejected with the type error, which is
    what its waiters observe once the cleanup has run. *)
Theorem clearTokens_keeps_marker (m : AuthManager) :
  (tokenStorage (clearTokens m) = None ∧
   tokenRefreshPromise (clearTokens m) = tokenRefreshPromise m ∧
   promises (clearTokens m) = promises m ∧
   requests (clearTokens m) = requests m ∧
   same_config m (clearTokens m)) ∧
  (∀ p now, usesTokens m → tokenRefreshPromise m = Some p →
     getAuthHeader now (clearTokens m) = (clearTokens m, Awaits p)) ∧
  (∀ p data now, promises m !! p = Some (Requesting Refresh) →
     ∃ m1 m2,
       step (clearTokens m) (RefreshAnswers p (inr data) now) = Some m1 ∧
       tokenStorage m1 = None ∧
       promises m1 !! p = Some (Completed (Rejected TypeError)) ∧
       requests m1 = requests m ∧
       step m1 (RunFinally p) = Some m2 ∧
       tokenStorage m2 = None ∧
       observed m2 (Awaits p) = Some (Rejected TypeError)).
Proof.
  split; [by repeat split|]. split.
  - intros p now Hu Hp. apply usesTokens_awaits_marker; [|done].
    destruct Hu as (key & Hk & Ht & Hi). by exists key.
  - intros p data now Hp.
    assert (Hlt : p < length (promises m)) by (by eapply lookup_lt_Some).
    assert (H1 : step (clearTokens m) (RefreshAnswers p (inr data) now) =
                 Some (complete p (set_tokenStorage None (clearTokens m), Rejected TypeError)))
      by (simpl; by rewrite Hp).
    eexists _, _. split; [exact H1|].
    assert (Hc : promises (complete p (set_tokenStorage None (clearTokens m), Rejected TypeError))
                   !! p = Some (Completed (Rejected TypeError)))
      by (simpl; by apply list_lookup_insert_eq).
    repeat split; [exact Hc|..].
    + cbn [step]. rewrite Hc. reflexivity.
    + reflexivity.
    + unfold observed. cbn [promises set_tokenRefreshPromise set_promises].
      rewrite list_lookup_insert_eq; [done|].
      unfold complete; simpl. by rewrite length_insert.
Qed.

Lemma clearTokens_keeps_marker_witness :
  getAuthHeader 86400100 (clearTokens refreshing) = (clearTokens refreshing, Awaits 1) ∧
  ∃ m1 m2,
    run (clearTokens refreshing) [RefreshAnswers 1 (renewed "A2") 86400500; RunFinally 1]
      = Some m2 ∧
    step (clearTokens refreshing) (RefreshAnswers 1 (renewed "A2") 86400500) = Some m1 ∧
    tokenStorage m2 = None ∧ observed m2 (Awaits 1) = Some (Rejected TypeError).
Proof.
  destruct (clearTokens_keeps_marker refreshing) as (_ & Hcall & Hanswer).
  split.
  - apply Hcall; [|reflexivity]. exists "01-XXXX". repeat split; reflexivity.
  - destruct (Hanswer 1 (RefreshTokenResponse.Build "A2") 86400500%Z eq_refl)
      as (m1 & m2 & H1 & _ & _ & _ & H2 & Hts & Hobs).
    exists m1, m2. repeat split; try assumption.
    cbn [run]. unfold renewed. rewrite H1, H2. reflexivity.
Defined.

Lemma stale_performsGeneration (now : Z) (m : AuthManager) :
  usesTokens m → tokenRefreshPromise m = None → stale now (tokenStorage m) →
  performsGeneration now m.
Proof.
  intros (key & Hk & Ht & Hi) Hnone Hstale. exists key. split; [done|].
  rewrite (getAuthHeader_usesTokens now m key Hk Ht Hi).
  unfold getAccessToken. rewrite Hnone.
  assert (Hgen : track (generateTokensFromApiKey m) =
    (launched m (Requesting Generation)
       [Post key (scopes m) (accessTokenExpiry m) (refreshTokenExpiry m)],
     Promise (length (promises m)))).
  { unfold generateTokensFromApiKey. by rewrite Hk, Ht. }
  destruct (tokenStorage m) as [ts|] eqn:Hts; [|by rewrite Hgen].
  destruct (Hstale ts eq_refl) as [Ha Hr].
  unfold isAccessTokenValid, isRefreshTokenValid. rewrite Hts.
  apply Z.ltb_ge in Ha, Hr. by rewrite Ha, Hr, Hgen.
Qed.

(** C8, as stated, fails: [clearTokens] run while a refresh is on the
    wire is followed by a call that awaits that refresh and starts no
    generation. *)
Lemma clear_does_not_always_force_generation :
  ¬ (∀ m now, reachable m → usesTokens m → performsGeneration now (clearTokens m)).
Proof.
  intros Hclaim.
  destruct (Hclaim refreshing 86400100%Z refreshing_reachable) as (key & _ & Hcall).
  - exists "01-XXXX". repeat split; reflexivity.
  - vm_compute in Hcall. discriminate Hcall.
Qed.

(** C8, amended. After [clearTokens] the status report shows no tokens
    present and both validity flags false, at every instant; and on a
    manager that uses tokens, when no acquisition is outstanding, the
    next call performs a full generation: neither a refresh nor a reuse
    of a cached token. *)
Theorem clear_then_generation (now : Z) (m : AuthManager) :
  getTokenStatus now (clearTokens m) = Build_TokenStatus false false false ∧
  (usesTokens m → tokenRefreshPromise m = None →
     performsGeneration now (clearTokens m) ∧
     requests (getAuthHeader now (clearTokens m)).1 =
       requests m ++ [Post (default "" (apiKey m)) (scopes m)
                        (accessTokenExpiry m) (refreshTokenExpiry m)]).
Proof.
  split; [reflexivity|]. intros Hu Hnone.
  assert (Hgen : performsGeneration now (clearTokens m)).
  { apply stale_performsGeneration; [| done | by intros ts].
    destruct Hu as (key & Hk & Ht & Hi). by exists key. }
  split; [exact Hgen|].
  destruct Hgen as (key & Hk & ->). simpl in *. by rewrite Hk.
Qed.

Lemma clear_then_generation_witness :
  performsGeneration 500 (clearTokens holding) ∧
  requests (getAuthHeader 500 (clearTokens holding)).1 =
    [Post "01-XXXX" default_scopes 86400000 604800000;
     Post "01-XXXX" default_scopes 86400000 604800000].
Proof.
  destruct (clear_then_generation 500 holding) as [_ Hnext].
  apply Hnext; [|reflexivity].
  exists "01-XXXX". repeat split; reflexivity.
Defined.

(** C1: the code at an input where the claim fails.  The default manager
    is asked for a header, the generation exchange is rejected with any
    error [e], the cleanup runs: the caller, suspended on the promise,
    observes the rejection [e] and no header.  The same happens to the
    caller of a refresh that is rejected. *)
Theorem failed_acquisition_reaches_caller (e : Error) (t0 t1 : Z) :
  (∃ m, run tenant [CallGetAuthHeader t0; GenerationAnswers 0 (inl e) t1; RunFinally 0]
          = Some m ∧
        (getAuthHeader t0 tenant).2 = Awaits 0 ∧
        observed m (Awaits 0) = Some (Rejected e) ∧
        observed m (Awaits 0) ≠ Some (Fulfilled {[ "Authorization" := "01-XXXX" ]})) ∧
  (∃ m, run holding [CallGetAuthHeader 86400000; RefreshAnswers 1 (inl e) t1; RunFinally 1]
          = Some m ∧
        (getAuthHeader 86400000 holding).2 = Awaits 1 ∧
        observed m (Awaits 1) = Some (Rejected e)).
Proof.
  split; eexists; (split; [reflexivity|]); repeat split; done.
Qed.

Lemma regenerating_reachable : reachable_by 6000 regenerating.
Proof.
  exists (Some "01-XXXX"), default_scopes, 1000%Z, 5000%Z, 0%Z,
    [CallGetAuthHeader 0; GenerationAnswers 0 (granted "A1" "R1" 1000 5000) 0;
     RunFinally 0; CallGetAuthHeader 6000].
  repeat split; simpl; lia.
Qed.

(** C3, as stated, fails: a generation started over an expired pair and
    then rejected leaves that pair in the storage. *)
Lemma failed_generation_keeps_stale_pair :
  ¬ (∀ m p e now m', reachable m →
       promises m !! p = Some (Requesting Generation) →
       step m (GenerationAnswers p (inl e) now) = Some m' →
       tokenStorage m' = None).
Proof.
  intros Hclaim.
  specialize (Hclaim regenerating 1 (AxiosError "Network Error") 6001%Z _
                (reachable_by_reachable _ _ regenerating_reachable) eq_refl eq_refl).
  discriminate Hclaim.
Qed.

(** C3, amended. In a state reached under a clock that does not run
    backwards: a refresh exchange that fails leaves the stored pair
    absent; a generation exchange that fails leaves the storage as it
    was, that is absent or holding a pair whose access and refresh tokens
    are both expired; in either case the acquisition completes rejected
    with the error, and once its cleanup has run, the next call on a
    manager that uses tokens performs a full generation from the secret,
    not a refresh. *)
Theorem failed_acquisition_then_generation (T now : Z) (m : AuthManager) (p : nat)
    (e : Error) :
  reachable_by T m → (T ≤ now)%Z →
  (promises m !! p = Some (Requesting Refresh) →
     ∃ m', step m (RefreshAnswers p (inl e) now) = Some m' ∧
           tokenStorage m' = None ∧
           promises m' !! p = Some (Completed (Rejected e))) ∧
  (promises m !! p = Some (Requesting Generation) →
     ∃ m', step m (GenerationAnswers p (inl e) now) = Some m' ∧
           tokenStorage m' = tokenStorage m ∧
           stale now (tokenStorage m') ∧
           promises m' !! p = Some (Completed (Rejected e))) ∧
  (promises m !! p = Some (Completed (Rejected e)) → usesTokens m →
     ∃ m', step m (RunFinally p) = Some m' ∧
           tokenStorage m' = tokenStorage m ∧
           performsGeneration now m').
Proof.
  intros Hreach HT.
  pose proof (reachable_by_timely T m Hreach) as Htimely.
  repeat split.
  - intros Hp. simpl. rewrite Hp. eexists. split; [done|]. split; [done|].
    unfold complete; simpl. apply list_lookup_insert_eq. by eapply lookup_lt_Some.
  - intros Hp. simpl. rewrite Hp. eexists. split; [done|]. split; [done|].
    split.
    + apply (fits_mono T now _ (Requesting Generation) HT). by eapply Htimely.
    + unfold complete; simpl. apply list_lookup_insert_eq. by eapply lookup_lt_Some.
  - intros Hp (key & Hk & Ht & Hi). simpl. rewrite Hp. eexists.
    split; [done|]. split; [done|].
    apply stale_performsGeneration; [by exists key | done |].
    apply (fits_mono T now _ (Completed (Rejected e)) HT). by eapply Htimely.
Qed.

Lemma failed_acquisition_then_generation_witness :
  ∃ m1 m2,
    step regenerating (GenerationAnswers 1 (inl (AxiosError "Network Error")) 6001) = Some m1 ∧
    tokenStorage m1 = Some (Build_TokenStorage "A1" "R1" 1000 5000) ∧
    step m1 (RunFinally 1) = Some m2 ∧
    performsGeneration 6002 m2.
Proof.
  destruct (failed_acquisition_then_generation 6000 6001 regenerating 1
              (AxiosError "Network Error") regenerating_reachable ltac:(lia))
    as (_ & Hgen & _).
  destruct (Hgen eq_refl) as (m1 & H1 & Hts & _ & Hp1).
  assert (Hreach1 : reachable_by 6001 m1).
  { exists (Some "01-XXXX"), default_scopes, 1000%Z, 5000%Z, 0%Z,
      [CallGetAuthHeader 0; GenerationAnswers 0 (granted "A1" "R1" 1000 5000) 0;
       RunFinally 0; CallGetAuthHeader 6000;
       GenerationAnswers 1 (inl (AxiosError "Network Error")) 6001].
    split; [simpl; lia|]. split; [|simpl; lia].
    change (step regenerating (GenerationAnswers 1 (inl (AxiosError "Network Error")) 6001)
            = Some m1). exact H1. }
  destruct (failed_acquisition_then_generation 6001 6002 m1 1
              (AxiosError "Network Error") Hreach1 ltac:(lia))
    as (_ & _ & Hnext).
  destruct Hnext as (m2 & H2 & _ & Hperf); [exact Hp1 | |].
  { injection H1 as <-. exists "01-XXXX". repeat split; reflexivity. }
  exists m1, m2. repeat split; assumption.
Defined.

Lemma step_ordered (m m' : AuthManager) ev :
  ordered m → ordersExpiries m ev → step m ev = Some m' → ordered m'.
Proof.
  intros Ho Hev Hstep.
  destruct ev as [now | p resp now | p resp now | p |]; simpl in Hstep.
  - injection Hstep as <-.
    by destruct (getAuthHeader_state now m) as [-> | (a & rs & _ & _ & _ & ->)].
  - destruct (promises m !! p) as [[[]|?|?]|]; try done.
    injection Hstep as <-. destruct resp as [e|data]; [exact Ho|].
    intros ts [= <-]; simpl in *. lia.
  - destruct (promises m !! p) as [[[]|?|?]|]; try done.
    injection Hstep as <-. unfold refreshAccessToken_resume.
    destruct resp as [e|data]; [by intros ts|].
    destruct (tokenStorage m) as [ts|] eqn:Hts; [|by intros ts'].
    intros ts' [= <-]; simpl in *. by apply Hev.
  - destruct (promises m !! p) as [[?|?|?]|]; try done. by injection Hstep as <-.
  - injection Hstep as <-. by intros ts.
Qed.

Lemma run_ordered (evs : list Event) (m m' : AuthManager) :
  ordered m → allOrderExpiries m evs → run m evs = Some m' → ordered m'.
Proof.
  revert m. induction evs as [|ev evs IH]; intros m Ho Hall Hrun; simpl in *.
  - by injection Hrun as <-.
  - destruct Hall as [Hev Hall]. destruct (step m ev) as [m1|] eqn:Hstep; [|done].
    apply (IH m1); [by eapply step_ordered | exact Hall | exact Hrun].
Qed.

(** C4, as stated, fails: with the default lifetimes and an endpoint that
    grants exactly what it is asked, a refresh answered late in the life
    of the refresh token sets the access expiry after the refresh expiry. *)
Lemma access_expiry_can_exceed_refresh_expiry :
  ¬ (∀ m ts, reachable m → tokenStorage m = Some ts →
       (accessTokenExpiresAt ts ≤ refreshTokenExpiresAt ts)%Z).
Proof.
  intros Hclaim.
  assert (Hreach : reachable
    (Build_AuthManager (Some "01-XXXX") default_scopes 86400000 604800000
       (Some (Build_TokenStorage "A2" "R1" 686400000 604800000)) (Some 1)
       [Finalised (Fulfilled "A1"); Completed (Fulfilled "A2")]
       [Post "01-XXXX" default_scopes 86400000 604800000; Put "Bearer R1"])).
  { exists (Some "01-XXXX"), default_scopes, 86400000%Z, 604800000%Z,
      [CallGetAuthHeader 0; GenerationAnswers 0 (granted "A1" "R1" 86400000 604800000) 0;
       RunFinally 0; CallGetAuthHeader 600000000;
       RefreshAnswers 1 (renewed "A2") 600000000].
    reflexivity. }
  specialize (Hclaim _ _ Hreach eq_refl). simpl in Hclaim. lia.
Qed.

(** C4, amended. Along every run in which each successful generation is
    answered with an access lifetime not longer than the refresh
    lifetime, and each successful refresh is answered no later than the
    stored refresh expiry minus the configured access lifetime, a stored
    pair always has its access expiry at or before its refresh expiry,
    and any further event of that kind, a call, a cleanup or a clear
    keeps it so.  The two conditions are exact: a successful generation
    leaves the expiries ordered if and only if the answered lifetimes
    are, and a successful refresh, which keeps the refresh expiry and
    sets the access expiry to the instant of the answer plus the
    configured lifetime, if and only if that sum is not after the refresh
    expiry. *)
Theorem expiry_order_when_answers_order (key : option string) (sc : list AuthScope)
    (ae re : Z) (evs : list Event) (m : AuthManager) :
  run (new_AuthManager key sc ae re) evs = Some m →
  allOrderExpiries (new_AuthManager key sc ae re) evs →
  ordered m ∧
  (∀ ev m', ordersExpiries m ev → step m ev = Some m' → ordered m') ∧
  (∀ p data now m', step m (GenerationAnswers p (inr data) now) = Some m' →
     (ordered m' ↔
      (TokenResponse.accessTokenExpiry data ≤ TokenResponse.refreshTokenExpiry data)%Z)) ∧
  (∀ p data now m' ts, step m (RefreshAnswers p (inr data) now) = Some m' →
     tokenStorage m = Some ts →
     tokenStorage m' = Some (refreshed m ts data now) ∧
     (ordered m' ↔ (now + accessTokenExpiry m ≤ refreshTokenExpiresAt ts)%Z)).
Proof.
  intros Hrun Hall.
  assert (Ho : ordered m) by (eapply run_ordered; eauto; by intros ts).
  split; [exact Ho|]. split; [intros ev m'; by apply step_ordered|]. split.
  - intros p data now m' Hstep. simpl in Hstep.
    destruct (promises m !! p) as [[[]|?|?]|]; try done.
    injection Hstep as <-. unfold ordered; simpl. split.
    + intros H. specialize (H _ eq_refl). simpl in H. lia.
    + intros H ts [= <-]; simpl. lia.
  - intros p data now m' ts Hstep Hts. simpl in Hstep.
    destruct (promises m !! p) as [[[]|?|?]|]; try done.
    injection Hstep as <-. unfold refreshAccessToken_resume, ordered; simpl.
    rewrite Hts; simpl. split; [done|]. split.
    + intros H. by specialize (H _ eq_refl).
    + by intros H ts' [= <-].
Qed.

Lemma expiry_order_when_answers_order_witness :
  ∃ m, run tenant
         [CallGetAuthHeader 0; GenerationAnswers 0 (granted "A1" "R1" 86400000 604800000) 0;
          RunFinally 0; CallGetAuthHeader 86400000;
          RefreshAnswers 1 (renewed "A2") 86400500] = Some m ∧
       tokenStorage m = Some (Build_TokenStorage "A2" "R1" 172800500 604800000) ∧
       ordered m.
Proof.
  eexists. split; [reflexivity|]. split; [reflexivity|].
  refine (proj1 (expiry_order_when_answers_order (Some "01-XXXX") default_scopes
            86400000 604800000
            [CallGetAuthHeader 0; GenerationAnswers 0 (granted "A1" "R1" 86400000 604800000) 0;
             RunFinally 0; CallGetAuthHeader 86400000;
             RefreshAnswers 1 (renewed "A2") 86400500] _ eq_refl _)).
  simpl. repeat split; try lia. intros ts [= <-]. simpl. lia.
Defined.

Lemma headerOfToken_fallsBack (key : string) (token : option string) :
  headerOfToken key token =
    if fallsBack token then {[ "Authorization" := key ]}
    else {[ "Authorization" := "Bearer " +:+ default "" token ]}.
Proof.
  destruct token as [t|]; [|done]. unfold fallsBack; simpl. by destruct (truthy t).
Qed.

Lemma emptyOnlyIf_weaken (E E' : Prop) (m : AuthManager) :
  (E → E') → emptyOnlyIf E m → emptyOnlyIf E' m.
Proof. intros HE (H1 & H2 & H3). repeat split; eauto. Qed.

Lemma step_emptyOnlyIf (E : Prop) (m m' : AuthManager) ev :
  emptyOnlyIf E m → step m ev = Some m' → emptyOnlyIf (E ∨ answersEmptyToken ev) m'.
Proof.
  intros (Hs & Hc & Hf) Hstep.
  destruct ev as [now | p resp now | p resp now | p |]; simpl in Hstep.
  - injection Hstep as <-.
    destruct (getAuthHeader_state now m) as [-> | (a & rs & _ & Hst & _ & ->)].
    { repeat split; eauto. }
    assert (Hnew : ∀ q b, (promises m ++ [a]) !! q = Some b →
                   promises m !! q = Some b ∨ b = a).
    { intros q b Hq. apply lookup_app_Some in Hq as [Hq | [_ Hq]]; [by left|].
      right. destruct (q - length (promises m)); simpl in Hq; [by injection Hq|done]. }
    repeat split; simpl.
    + eauto.
    + intros q Hq. destruct (Hnew _ _ Hq) as [Hold | <-]; [eauto|]. inversion Hst.
    + intros q Hq. destruct (Hnew _ _ Hq) as [Hold | <-]; [eauto|]. inversion Hst.
  - destruct (promises m !! p) as [[[]|?|?]|] eqn:Hp; try done.
    injection Hstep as <-.
    assert (Hlt : p < length (promises m)) by (by eapply lookup_lt_Some).
    destruct resp as [e|data]; unfold complete; simpl; repeat split; simpl.
    + eauto.
    + intros q. destruct (decide (q = p)) as [->|Hne];
        [by rewrite list_lookup_insert_eq | rewrite list_lookup_insert_ne by done; eauto].
    + intros q. destruct (decide (q = p)) as [->|Hne];
        [by rewrite list_lookup_insert_eq | rewrite list_lookup_insert_ne by done; eauto].
    + intros ts [= <-]; simpl. by right.
    + intros q. destruct (decide (q = p)) as [->|Hne];
        [rewrite list_lookup_insert_eq by done; intros [= ->]; by right
        | rewrite list_lookup_insert_ne by done; eauto].
    + intros q. destruct (decide (q = p)) as [->|Hne];
        [by rewrite list_lookup_insert_eq | rewrite list_lookup_insert_ne by done; eauto].
  - destruct (promises m !! p) as [[[]|?|?]|] eqn:Hp; try done.
    injection Hstep as <-.
    assert (Hlt : p < length (promises m)) by (by eapply lookup_lt_Some).
    unfold refreshAccessToken_resume.
    destruct resp as [e|data]; [|destruct (tokenStorage m) as [ts|] eqn:Hts];
      unfold complete; simpl; repeat split; simpl; try done.
    all: try (intros q; destruct (decide (q = p)) as [->|Hne];
        [by rewrite list_lookup_insert_eq | rewrite list_lookup_insert_ne by done; eauto]).
    + intros ts' [= <-]; simpl. by right.
    + intros q. destruct (decide (q = p)) as [->|Hne];
        [rewrite list_lookup_insert_eq by done; intros [= ->]; by right
        | rewrite list_lookup_insert_ne by done; eauto].
  - destruct (promises m !! p) as [[?|r|?]|] eqn:Hp; try done.
    injection Hstep as <-.
    assert (Hlt : p < length (promises m)) by (by eapply lookup_lt_Some).
    repeat split; simpl.
    + eauto.
    + intros q. destruct (decide (q = p)) as [->|Hne];
        [by rewrite list_lookup_insert_eq | rewrite list_lookup_insert_ne by done; eauto].
    + intros q. destruct (decide (q = p)) as [->|Hne];
        [rewrite list_lookup_insert_eq by done; intros [= ->]; eauto
        | rewrite list_lookup_insert_ne by done; eauto].
  - injection Hstep as <-. repeat split; simpl; eauto. done.
Qed.

Lemma run_emptyOnlyIf (evs : list Event) (E : Prop) (m m' : AuthManager) :
  emptyOnlyIf E m → run m evs = Some m' →
  emptyOnlyIf (E ∨ Exists answersEmptyToken evs) m'.
Proof.
  revert E m. induction evs as [|ev evs IH]; intros E m Hinv Hrun; simpl in Hrun.
  - injection Hrun as <-. eapply emptyOnlyIf_weaken; [|exact Hinv]. by left.
  - destruct (step m ev) as [m1|] eqn:Hstep; [|done].
    eapply emptyOnlyIf_weaken; [|eapply IH; [eapply step_emptyOnlyIf; eauto | exact Hrun]].
    rewrite Exists_cons. tauto.
Qed.

(** C9. [getAccessToken], declared [Promise<string | null>], never yields
    null: it yields the access token read from the storage, or a promise
    of the heap, whose outcomes are strings or rejections.  Hence the
    final [return] of [getAuthHeader], the raw secret, is taken only on
    an empty token, and a manager holds an empty token only after the
    authentication endpoint has answered with one: in a run where it
    never does, a call on a manager that uses tokens returns a
    bearer-prefixed header or awaits, and a settled promise gives its
    waiters a bearer-prefixed header or its rejection. *)
Theorem getAccessToken_never_null (key : option string) (sc : list AuthScope) (ae re : Z)
    (evs : list Event) (m : AuthManager) :
  run (new_AuthManager key sc ae re) evs = Some m →
  (∀ now, (getAccessToken now m).2 ≠ Value None) ∧
  (∀ now, (∃ ts, tokenStorage m = Some ts ∧
                 (getAccessToken now m).2 = Value (Some (accessToken ts))) ∨
          (∃ p, (getAccessToken now m).2 = Promise p)) ∧
  (∀ now token, (getAccessToken now m).2 = Value token → fallsBack token = true →
     token = Some "" ∧ Exists answersEmptyToken evs) ∧
  (∀ p t, promises m !! p = Some (Finalised (Fulfilled t)) → fallsBack (Some t) = true →
     t = "" ∧ Exists answersEmptyToken evs) ∧
  (¬ Exists answersEmptyToken evs → usesTokens m →
     (∀ now h, (getAuthHeader now m).2 = Returns h →
        ∃ t, t ≠ "" ∧ h = {[ "Authorization" := "Bearer " +:+ t ]}) ∧
     (∀ p h, observed m (Awaits p) = Some (Fulfilled h) →
        ∃ t, t ≠ "" ∧ h = {[ "Authorization" := "Bearer " +:+ t ]})).
Proof.
  intros Hrun.
  assert (Hinv : emptyOnlyIf (Exists answersEmptyToken evs) m).
  { eapply emptyOnlyIf_weaken; [|eapply (run_emptyOnlyIf evs False); [|exact Hrun]].
    - tauto.
    - repeat split; done. }
  destruct Hinv as (Hs & Hc & Hf).
  assert (Hshape : ∀ now,
    (∃ ts, tokenStorage m = Some ts ∧
           (getAccessToken now m).2 = Value (Some (accessToken ts))) ∨
    (∃ p, (getAccessToken now m).2 = Promise p)).
  { intros now.
    destruct (getAccessToken_branches now m) as
      [(p & _ & ->) | [(ts & _ & Hts & _ & ->) | (a & rs & _ & _ & ->)]]; eauto. }
  assert (Hempty : ∀ t, fallsBack (Some t) = true → t = "").
  { intros t Hfb. unfold fallsBack in Hfb; simpl in Hfb.
    destruct (decide (t = "")) as [->|Hne]; [done|].
    apply truthy_spec in Hne. by rewrite Hne in Hfb. }
  split; [|split; [exact Hshape|split; [|split]]].
  - intros now Hnull.
    destruct (Hshape now) as [(ts & _ & Heq) | (p & Heq)]; congruence.
  - intros now token Hv Hfb.
    destruct (Hshape now) as [(ts & Hts & Heq) | (p & Heq)]; [|congruence].
    rewrite Heq in Hv. injection Hv as <-.
    pose proof (Hempty _ Hfb) as Ht. rewrite Ht. eauto.
  - intros p t Hp Hfb. pose proof (Hempty _ Hfb) as ->. eauto.
  - intros Hnever (k & Hk & Ht & Hi). split.
    + intros now h. rewrite (getAuthHeader_usesTokens now m k Hk Ht Hi).
      destruct (Hshape now) as [(ts & Hts & Heq) | (p & Heq)];
        destruct (getAccessToken now m) as [m' r]; simpl in Heq; subst r; [|done].
      intros [= <-]. exists (accessToken ts).
      assert (Hne : accessToken ts ≠ "") by (intros He; apply Hnever; eauto).
      split; [done|]. simpl. apply truthy_spec in Hne. by rewrite Hne.
    + intros p h. unfold observed.
      destruct (promises m !! p) as [[?|?|[t|e]]|] eqn:Hp; try done.
      simpl. intros [= <-]. exists t.
      assert (Hne : t ≠ "") by (intros ->; apply Hnever; eauto).
      split; [done|]. apply truthy_spec in Hne. by rewrite Hne.
Qed.

Lemma getAccessToken_never_null_witness :
  (getAccessToken 500 holding).2 ≠ Value None ∧
  (getAuthHeader 500 holding).2 = Returns {[ "Authorization" := "Bearer A1" ]}.
Proof.
  destruct (getAccessToken_never_null (Some "01-XXXX") default_scopes 86400000 604800000
              [CallGetAuthHeader 0;
               GenerationAnswers 0 (granted "A1" "R1" 86400000 604800000) 0;
               RunFinally 0] holding eq_refl) as (Hnull & _).
  split; [apply Hnull | reflexivity].
Defined.

(** The last [return] of [getAuthHeader] is not dead code: an endpoint
    that grants an empty access token makes the waiting caller, and every
    later caller reusing that token, send the raw secret. *)
Example empty_token_falls_back :
  ∃ m, run tenant [CallGetAuthHeader 0;
                   GenerationAnswers 0 (granted "" "R1" 86400000 604800000) 0;
                   RunFinally 0] = Some m ∧
       observed m (Awaits 0) = Some (Fulfilled {[ "Authorization" := "01-XXXX" ]}) ∧
       (getAuthHeader 500 m).2 = Returns {[ "Authorization" := "01-XXXX" ]}.
Proof. eexists. split; [reflexivity|]. split; reflexivity. Qed.


(** * Further properties of [AuthManager] *)

(** X1. A manager built without a secret, or with the empty string as
    secret, answers every call with the empty header mapping whatever its
    scopes are, and never leaves its initial state: no request, no
    promise, no stored pair. *)
Theorem keyless_manager_is_inert (key : option string) (sc : list AuthScope) (ae re : Z)
    (evs : list Event) (m : AuthManager) (now : Z) :
  truthy_opt key = false →
  run (new_AuthManager key sc ae re) evs = Some m →
  m = new_AuthManager key sc ae re ∧ getAuthHeader now m = (m, Returns ∅).
Proof.
  intros Hkey Hrun.
  assert (Hcall : ∀ t, getAuthHeader t (new_AuthManager key sc ae re) =
                       (new_AuthManager key sc ae re, Returns ∅)).
  { intros t. unfold getAuthHeader; simpl. destruct key as [k|]; [|done].
    simpl in Hkey. by rewrite Hkey. }
  assert (Hidle : m = new_AuthManager key sc ae re).
  { remember (new_AuthManager key sc ae re) as m0 eqn:Hm0.
    assert (Hfix : ∀ ev m1, step m0 ev = Some m1 → m1 = m0).
    { intros ev m1 Hstep.
      destruct ev as [t | p resp t | p resp t | p |]; simpl in Hstep.
      - injection Hstep as <-. by rewrite Hcall.
      - by rewrite Hm0 in Hstep.
      - by rewrite Hm0 in Hstep.
      - by rewrite Hm0 in Hstep.
      - injection Hstep as <-. by rewrite Hm0. }
    clear Hm0 Hcall. revert Hrun.
    induction evs as [|ev evs IH]; simpl; [by intros [= <-]|].
    destruct (step m0 ev) as [m1|] eqn:Hstep; [|done].
    rewrite (Hfix _ _ Hstep). exact IH. }
  split; [exact Hidle|]. rewrite Hidle. apply Hcall.
Qed.

Lemma keyless_manager_is_inert_witness :
  getAuthHeader 9 (new_AuthManager (Some "") [ingestion] 1000 5000) =
    (new_AuthManager (Some "") [ingestion] 1000 5000, Returns ∅).
Proof.
  apply (keyless_manager_is_inert (Some "") [ingestion] 1000 5000
           [CallGetAuthHeader 1; CallClearTokens; CallGetAuthHeader 2]);
    reflexivity.
Defined.

(** Each acquisition ever started has sent exactly one request. *)
Lemma step_one_request_each (m m' : AuthManager) ev :
  length (requests m) = length (promises m) → step m ev = Some m' →
  length (requests m') = length (promises m').
Proof.
  intros Heq Hstep.
  destruct ev as [now | p resp now | p resp now | p |]; simpl in Hstep.
  - injection Hstep as <-.
    destruct (getAuthHeader_state now m) as [-> | (a & rs & _ & Hs & Hu & ->)]; [done|].
    simpl. rewrite !length_app, Heq. simpl.
    destruct Hs as [ts _ _ _ | key _ _ _ _ | Hk _ _]; simpl; try done.
    destruct Hu as (key & Hkey & Ht & _). rewrite Hkey in Hk. simpl in Hk. congruence.
  - destruct (promises m !! p) as [[[]|?|?]|]; try done.
    injection Hstep as <-.
    destruct (generation_resume_frame resp now m) as (Hps & _ & Hrq).
    unfold complete; simpl. rewrite length_insert. simpl in Hps, Hrq. congruence.
  - destruct (promises m !! p) as [[[]|?|?]|]; try done.
    injection Hstep as <-.
    destruct (refresh_resume_frame resp now m) as (Hps & _ & Hrq).
    unfold complete; simpl. rewrite length_insert. simpl in Hps, Hrq. congruence.
  - destruct (promises m !! p) as [[?|?|?]|]; try done.
    injection Hstep as <-. simpl. by rewrite length_insert.
  - by injection Hstep as <-.
Qed.

(** X2. In every state a manager can reach, the number of requests sent
    to the authentication endpoint equals the number of acquisitions
    started: [getAccessToken] never starts an acquisition that completes
    without a request, that is, the guards of [generateTokensFromApiKey]
    (no secret) and of [refreshAccessToken] (no storage) never throw. *)
Theorem one_request_per_acquisition (m : AuthManager) :
  reachable m → length (requests m) = length (promises m).
Proof.
  intros (key & sc & ae & re & evs & Hrun).
  assert (H0 : length (requests (new_AuthManager key sc ae re)) =
               length (promises (new_AuthManager key sc ae re))) by done.
  revert H0 Hrun. generalize (new_AuthManager key sc ae re) as m0.
  induction evs as [|ev evs IH]; intros m0 H0 Hrun; simpl in Hrun.
  - by injection Hrun as <-.
  - destruct (step m0 ev) as [m1|] eqn:Hstep; [|done].
    eapply IH; [|exact Hrun]. by eapply step_one_request_each.
Qed.

Lemma one_request_per_acquisition_witness :
  length (requests refreshing) = length (promises refreshing).
Proof. apply (one_request_per_acquisition refreshing refreshing_reachable). Defined.

Lemma last_omap_snoc_Some {A B} (f : A → option B) (l : list A) x y :
  f x = Some y → last (omap f (l ++ [x])) = Some y.
Proof. intros Hx. rewrite omap_app. simpl. rewrite Hx. by rewrite last_snoc. Qed.

Lemma omap_snoc_None {A B} (f : A → option B) (l : list A) x :
  f x = None → omap f (l ++ [x]) = omap f l.
Proof. intros Hx. rewrite omap_app. simpl. rewrite Hx. by rewrite app_nil_r. Qed.

Lemma step_holdsLatest (pre : list Event) (m m' : AuthManager) ev :
  holdsLatest pre m → step m ev = Some m' → holdsLatest (pre ++ [ev]) m'.
Proof.
  unfold holdsLatest. intros Hl Hstep.
  destruct ev as [now | p resp now | p resp now | p |]; simpl in Hstep.
  - injection Hstep as <-. rewrite !omap_snoc_None by done.
    by destruct (getAuthHeader_state now m) as [-> | (a & rs & _ & _ & _ & ->)].
  - destruct (promises m !! p) as [[[]|?|?]|]; try done.
    injection Hstep as <-. destruct resp as [e|data].
    + rewrite !omap_snoc_None by done. exact Hl.
    + intros ts [= <-]. split; by apply last_omap_snoc_Some.
  - destruct (promises m !! p) as [[[]|?|?]|]; try done.
    injection Hstep as <-. unfold refreshAccessToken_resume.
    destruct resp as [e|data]; [by intros ts|].
    destruct (tokenStorage m) as [ts|] eqn:Hts; [|by intros ts'].
    intros ts' [= <-]. split; [by apply last_omap_snoc_Some|].
    rewrite omap_snoc_None by done. simpl. by destruct (Hl ts eq_refl).
  - destruct (promises m !! p) as [[?|?|?]|]; try done.
    injection Hstep as <-. by rewrite !omap_snoc_None.
  - injection Hstep as <-. by intros ts.
Qed.

Lemma run_holdsLatest (evs pre : list Event) (m m' : AuthManager) :
  holdsLatest pre m → run m evs = Some m' → holdsLatest (pre ++ evs) m'.
Proof.
  revert pre m. induction evs as [|ev evs IH]; intros pre m Hl Hrun; simpl in Hrun.
  - injection Hrun as <-. by rewrite app_nil_r.
  - destruct (step m ev) as [m1|] eqn:Hstep; [|done].
    change (pre ++ ev :: evs) with (pre ++ [ev] ++ evs).
    rewrite (assoc_L (++) pre [ev] evs). eapply IH; [|exact Hrun].
    by eapply step_holdsLatest.
Qed.

(** X3. Whatever the run, a stored pair holds the tokens the endpoint
    answered last: its access token is that of the most recent successful
    answer, generation or refresh, and its refresh token that of the most
    recent successful generation. *)
Theorem stored_pair_is_latest_answer (key : option string) (sc : list AuthScope) (ae re : Z)
    (evs : list Event) (m : AuthManager) (ts : TokenStorage) :
  run (new_AuthManager key sc ae re) evs = Some m →
  tokenStorage m = Some ts →
  last (omap answeredAccessToken evs) = Some (accessToken ts) ∧
  last (omap grantedRefreshToken evs) = Some (refreshToken ts).
Proof.
  intros Hrun Hts.
  apply (run_holdsLatest evs [] (new_AuthManager key sc ae re) m); [by intros ts'|done|done].
Qed.

Lemma stored_pair_is_latest_answer_witness :
  last (omap answeredAccessToken
          [CallGetAuthHeader 0; GenerationAnswers 0 (granted "A1" "R1" 86400000 604800000) 0;
           RunFinally 0; CallGetAuthHeader 86400000;
           RefreshAnswers 1 (renewed "A2") 86400500]) = Some "A2" ∧
  last (omap grantedRefreshToken
          [CallGetAuthHeader 0; GenerationAnswers 0 (granted "A1" "R1" 86400000 604800000) 0;
           RunFinally 0; CallGetAuthHeader 86400000;
           RefreshAnswers 1 (renewed "A2") 86400500]) = Some "R1".
Proof.
  apply (stored_pair_is_latest_answer (Some "01-XXXX") default_scopes 86400000 604800000
           [CallGetAuthHeader 0; GenerationAnswers 0 (granted "A1" "R1" 86400000 604800000) 0;
            RunFinally 0; CallGetAuthHeader 86400000;
            RefreshAnswers 1 (renewed "A2") 86400500]
           _ (Build_TokenStorage "A2" "R1" 172800500 604800000) eq_refl eq_refl).
Defined.

Lemma legitimate_more (pre : list Event) ev (m m' : AuthManager) r :
  same_config m m' → legitimate pre m r → legitimate (pre ++ [ev]) m' r.
Proof.
  intros (Hk & Hsc & Hae & Hre). destruct r as [k s a e | h]; simpl.
  - rewrite Hk, Hsc, Hae, Hre. tauto.
  - intros (t & Ht & ->). exists t. split; [|done].
    rewrite omap_app. apply elem_of_app. by left.
Qed.

Lemma step_legitimate (pre : list Event) (m m' : AuthManager) ev :
  holdsLatest pre m → Forall (legitimate pre m) (requests m) →
  step m ev = Some m' → Forall (legitimate (pre ++ [ev]) m') (requests m').
Proof.
  intros Hl Hall Hstep.
  pose proof (step_same_config _ _ _ Hstep) as Hcfg.
  assert (Hold : Forall (legitimate (pre ++ [ev]) m') (requests m)).
  { eapply Forall_impl; [exact Hall|]. intros r. by apply legitimate_more. }
  destruct ev as [now | p resp now | p resp now | p |]; simpl in Hstep.
  - injection Hstep as <-.
    destruct (getAuthHeader_state now m) as [Heq | (a & rs & _ & Hs & _ & Heq)].
    { by rewrite Heq in *. }
    rewrite Heq in *. simpl. apply Forall_app. split; [exact Hold|].
    destruct Hs as [ts Hts _ _ | key Hk Ht _ _ | _ _ _]; [| |by constructor].
    + constructor; [|by constructor]. simpl. exists (refreshToken ts). split; [|done].
      rewrite omap_snoc_None by done.
      destruct (Hl ts Hts) as [_ Hlast]. apply last_Some in Hlast as (l' & ->).
      apply elem_of_app. right. by apply list_elem_of_singleton.
    + constructor; [|by constructor]. by simpl.
  - destruct (promises m !! p) as [[[]|?|?]|]; try done.
    injection Hstep as <-.
    destruct (generation_resume_frame resp now m) as (_ & _ & Hrq).
    unfold complete in *; simpl in *. by rewrite Hrq.
  - destruct (promises m !! p) as [[[]|?|?]|]; try done.
    injection Hstep as <-.
    destruct (refresh_resume_frame resp now m) as (_ & _ & Hrq).
    unfold complete in *; simpl in *. by rewrite Hrq.
  - destruct (promises m !! p) as [[?|?|?]|]; try done. by injection Hstep as <-.
  - by injection Hstep as <-.
Qed.

Lemma run_legitimate (evs pre : list Event) (m m' : AuthManager) :
  holdsLatest pre m → Forall (legitimate pre m) (requests m) →
  run m evs = Some m' → Forall (legitimate (pre ++ evs) m') (requests m').
Proof.
  revert pre m. induction evs as [|ev evs IH]; intros pre m Hl Hall Hrun; simpl in Hrun.
  - injection Hrun as <-. by rewrite app_nil_r.
  - destruct (step m ev) as [m1|] eqn:Hstep; [|done].
    change (pre ++ ev :: evs) with (pre ++ [ev] ++ evs).
    rewrite (assoc_L (++) pre [ev] evs). eapply IH; [| |exact Hrun].
    + by eapply step_holdsLatest.
    + by eapply step_legitimate.
Qed.

(** X4. Every request a manager has sent to the authentication endpoint
    is either the generation POST carrying the constructor's secret (a
    non-empty one), scopes and lifetimes, or a refresh PUT whose
    Authorization is [Bearer] followed by a refresh token that a
    successful generation of the same run has granted.  In particular
    the secret travels only in the POST, and a manager sends nothing
    else. *)
Theorem only_legitimate_requests (key : option string) (sc : list AuthScope) (ae re : Z)
    (evs : list Event) (m : AuthManager) (r : Request) :
  run (new_AuthManager key sc ae re) evs = Some m →
  r ∈ requests m →
  match r with
  | Post k s a e => key = Some k ∧ k ≠ "" ∧ s = sc ∧ a = ae ∧ e = re
  | Put authorization =>
      ∃ t, t ∈ omap grantedRefreshToken evs ∧ authorization = "Bearer " +:+ t
  end.
Proof.
  intros Hrun Hr.
  pose proof (run_legitimate evs [] (new_AuthManager key sc ae re) m) as Hall.
  simpl in Hall. specialize (Hall ltac:(by intros ts) ltac:(by constructor) Hrun).
  rewrite Forall_forall in Hall. specialize (Hall r Hr).
  destruct (run_same_config _ _ _ Hrun) as (Hk & Hsc & Hae & Hre). simpl in *.
  destruct r as [k s a e | h]; simpl in Hall; [|exact Hall].
  destruct Hall as (Hkey & Ht & -> & -> & ->).
  rewrite Hk in Hkey. apply truthy_spec in Ht. done.
Qed.

Lemma only_legitimate_requests_witness :
  ∃ t, t ∈ omap grantedRefreshToken
             [CallGetAuthHeader 0;
              GenerationAnswers 0 (granted "A1" "R1" 86400000 604800000) 0;
              RunFinally 0; CallGetAuthHeader 86400000] ∧
       "Bearer R1" = "Bearer " +:+ t.
Proof.
  apply (only_legitimate_requests (Some "01-XXXX") default_scopes 86400000 604800000
           [CallGetAuthHeader 0; GenerationAnswers 0 (granted "A1" "R1" 86400000 604800000) 0;
            RunFinally 0; CallGetAuthHeader 86400000] refreshing (Put "Bearer R1") eq_refl).
  apply list_elem_of_In. simpl. tauto.
Defined.

(** X5. When the generation on the wire is answered successfully at
    instant [t] with a non-empty access token, and its cleanup has run:
    the storage holds exactly the answered pair, with expiries [t] plus
    the lifetimes the endpoint returned (not the configured ones); no
    acquisition is in flight; the callers that awaited it receive
    [Bearer] followed by the new access token; and any number of later
    calls made strictly before the access expiry minus one minute get
    that same header at once, leave the manager unchanged and send no
    request. *)
Theorem generation_then_reuse (m : AuthManager) (p : nat) (data : TokenResponse.t)
    (t : Z) (calls : list Z) :
  usesTokens m →
  promises m !! p = Some (Requesting Generation) →
  TokenResponse.accessToken data ≠ "" →
  Forall (λ now, (now < t + TokenResponse.accessTokenExpiry data - 60000)%Z) calls →
  let bearer : Headers :=
    {[ "Authorization" := "Bearer " +:+ TokenResponse.accessToken data ]} in
  ∃ m', run m [GenerationAnswers p (inr data) t; RunFinally p] = Some m' ∧
        tokenStorage m' = Some (generated data t) ∧
        tokenRefreshPromise m' = None ∧
        requests m' = requests m ∧
        observed m' (Awaits p) = Some (Fulfilled bearer) ∧
        Forall (λ now, getAuthHeader now m' = (m', Returns bearer)) calls ∧
        run m' (CallGetAuthHeader <$> calls) = Some m'.
Proof.
  intros (key & Hk & Ht & Hi) Hp Hne Hcalls bearer.
  assert (Hlt : p < length (promises m)) by (by eapply lookup_lt_Some).
  apply truthy_spec in Hne.
  set (m1 := complete p (generateTokensFromApiKey_resume (inr data) t m)).
  assert (H1 : promises m1 !! p = Some (Completed (Fulfilled (TokenResponse.accessToken data))))
    by (simpl; by apply list_lookup_insert_eq).
  set (m' := set_tokenRefreshPromise None
               (set_promises (<[p := Finalised (Fulfilled (TokenResponse.accessToken data))]>
                                (promises m1)) m1)).
  assert (Hrun : run m [GenerationAnswers p (inr data) t; RunFinally p] = Some m').
  { cbn [run step]. rewrite Hp. fold m1. by rewrite H1. }
  assert (Hcall : ∀ now, (now < t + TokenResponse.accessTokenExpiry data - 60000)%Z →
                         getAuthHeader now m' = (m', Returns bearer)).
  { intros now Hnow.
    rewrite (getAuthHeader_usesTokens now m' key Hk Ht Hi).
    unfold getAccessToken, isAccessTokenValid; simpl.
    apply Z.ltb_lt in Hnow. rewrite Hnow. unfold headerOfToken; simpl. by rewrite Hne. }
  exists m'. split; [exact Hrun|]. repeat split.
  - unfold observed; simpl. rewrite list_lookup_insert_eq by (by rewrite length_insert).
    simpl. by rewrite Hne.
  - eapply Forall_impl; [exact Hcalls|]. exact Hcall.
  - induction Hcalls as [|now calls Hnow _ IH]; [done|].
    cbn [fmap list_fmap run step]. by rewrite (Hcall now Hnow).
Qed.

Lemma generation_then_reuse_witness :
  ∃ m', run generating [GenerationAnswers 0 (granted "A1" "R1" 86400000 604800000) 10;
                        RunFinally 0] = Some m' ∧
        tokenStorage m' = Some (Build_TokenStorage "A1" "R1" 86400010 604800010) ∧
        run m' (CallGetAuthHeader <$> [500; 86340009]%Z) = Some m'.
Proof.
  destruct (generation_then_reuse generating 0
              (TokenResponse.Build "A1" "R1" 86400000 604800000) 10 [500; 86340009]%Z)
    as (m' & Hrun & Hts & _ & _ & _ & _ & Hcalls).
  - exists "01-XXXX". repeat split; reflexivity.
  - reflexivity.
  - done.
  - repeat constructor; simpl; lia.
  - exists m'. repeat split; assumption.
Defined.

(** X6. The branch a call takes on a manager that uses tokens, holds a
    pair and has no acquisition in flight is decided by the instant
    alone: strictly before the access expiry minus 60000 ms the stored
    token is reused and nothing is sent, even if the refresh token has
    expired; from that instant on, and strictly before the refresh
    expiry, one refresh PUT is sent; from the refresh expiry on, one
    generation POST.  With no pair stored it is always the generation
    POST. *)
Theorem branch_by_instant (now : Z) (m : AuthManager) (key : string) :
  apiKey m = Some key → truthy key = true → ingestionOnly m = false →
  tokenRefreshPromise m = None →
  (tokenStorage m = None → performsGeneration now m) ∧
  (∀ ts, tokenStorage m = Some ts →
     ((now < accessTokenExpiresAt ts - 60000)%Z →
        getAuthHeader now m = (m, Returns (headerOfToken key (Some (accessToken ts))))) ∧
     ((accessTokenExpiresAt ts - 60000 ≤ now < refreshTokenExpiresAt ts)%Z →
        getAuthHeader now m =
          (launched m (Requesting Refresh) [Put ("Bearer " +:+ refreshToken ts)],
           Awaits (length (promises m)))) ∧
     ((accessTokenExpiresAt ts - 60000 ≤ now)%Z → (refreshTokenExpiresAt ts ≤ now)%Z →
        performsGeneration now m)).
Proof.
  intros Hk Ht Hi Hnone.
  assert (Hu : usesTokens m) by (by exists key).
  split.
  - intros Hts. apply stale_performsGeneration; [done..|]. rewrite Hts. by intros ts.
  - intros ts Hts. repeat split.
    + intros Hlt. rewrite (getAuthHeader_usesTokens now m key Hk Ht Hi).
      unfold getAccessToken, isAccessTokenValid. rewrite Hnone, Hts.
      apply Z.ltb_lt in Hlt. by rewrite Hlt.
    + intros [Hge Hlt]. rewrite (getAuthHeader_usesTokens now m key Hk Ht Hi).
      unfold getAccessToken, isAccessTokenValid, isRefreshTokenValid, refreshAccessToken.
      rewrite Hnone, Hts. apply Z.ltb_ge in Hge. apply Z.ltb_lt in Hlt.
      by rewrite Hge, Hlt.
    + intros Hge Hre. apply stale_performsGeneration; [done..|]. rewrite Hts.
      intros ts' [= <-]. lia.
Qed.

Lemma branch_by_instant_witness :
  getAuthHeader 86340000 holding =
    (launched holding (Requesting Refresh) [Put "Bearer R1"], Awaits 1) ∧
  getAuthHeader 86339999 holding = (holding, Returns {[ "Authorization" := "Bearer A1" ]}) ∧
  performsGeneration 604800000 holding.
Proof.
  destruct (branch_by_instant 86340000 holding "01-XXXX") as [_ Hmid]; try reflexivity.
  destruct (branch_by_instant 86339999 holding "01-XXXX") as [_ Hlow]; try reflexivity.
  destruct (branch_by_instant 604800000 holding "01-XXXX") as [_ Hhigh]; try reflexivity.
  destruct (Hmid _ eq_refl) as (_ & Hrefresh & _).
  destruct (Hlow _ eq_refl) as (Hreuse & _ & _).
  destruct (Hhigh _ eq_refl) as (_ & _ & Hgen).
  split; [apply Hrefresh; simpl; lia|].
  split; [apply Hreuse; simpl; lia|].
  apply Hgen; simpl; lia.
Defined.

(** X7. The status report never shows a valid token without tokens
    present, and validity only decays with time: a token judged valid at
    some instant is judged valid at every earlier instant, so a token
    once reported expired stays expired for as long as the storage is
    not written. *)
Theorem token_status_decays (now later : Z) (m : AuthManager) :
  (hasTokens (getTokenStatus now m) = false →
     accessTokenValid (getTokenStatus now m) = false ∧
     refreshTokenValid (getTokenStatus now m) = false) ∧
  ((now ≤ later)%Z →
     (accessTokenValid (getTokenStatus later m) = true →
        accessTokenValid (getTokenStatus now m) = true) ∧
     (refreshTokenValid (getTokenStatus later m) = true →
        refreshTokenValid (getTokenStatus now m) = true)).
Proof.
  unfold getTokenStatus, isAccessTokenValid, isRefreshTokenValid; simpl.
  destruct (tokenStorage m) as [ts|]; simpl.
  - split; [done|]. intros Hle. rewrite !Z.ltb_lt. lia.
  - done.
Qed.

Lemma token_status_decays_witness :
  accessTokenValid (getTokenStatus 500 holding) = true ∧
  refreshTokenValid (getTokenStatus 500 holding) = true.
Proof.
  destruct (token_status_decays 500 86000000 holding) as [_ Hdecay].
  destruct Hdecay as [Ha Hr]; [lia|].
  split; [apply Ha | apply Hr]; reflexivity.
Defined.

(** X8. Only a successful generation writes the refresh token and its
    expiry.  Along any run in which no generation is answered
    successfully (calls, refreshes answered either way, failed
    generations, cleanups, clears), a pair still stored at the end has
    the refresh token and the refresh expiry of the pair stored at the
    start: a refresh never extends the life of the refresh token. *)
Theorem refresh_part_only_written_by_generation (evs : list Event) (m m' : AuthManager)
    (ts ts' : TokenStorage) :
  Forall (λ ev, grantedRefreshToken ev = None) evs →
  run m evs = Some m' →
  tokenStorage m = Some ts → tokenStorage m' = Some ts' →
  refreshPart ts' = refreshPart ts.
Proof.
  intros Hno Hrun Hts.
  assert (Hinv : ∀ s, tokenStorage m = Some s → refreshPart s = refreshPart ts)
    by (by intros s; rewrite Hts; intros [= <-]).
  clear Hts. revert m Hrun Hinv ts'.
  induction Hno as [|ev evs Hev _ IH]; intros m Hrun Hinv ts'; simpl in Hrun.
  - injection Hrun as <-. apply Hinv.
  - destruct (step m ev) as [m1|] eqn:Hstep; [|done].
    apply (IH m1 Hrun). clear IH Hrun ts'.
    destruct ev as [now | p resp now | p resp now | p |]; simpl in Hstep.
    + injection Hstep as <-.
      by destruct (getAuthHeader_state now m) as [-> | (a & rs & _ & _ & _ & ->)].
    + destruct (promises m !! p) as [[[]|?|?]|]; try done.
      injection Hstep as <-. by destruct resp as [e|data].
    + destruct (promises m !! p) as [[[]|?|?]|]; try done.
      injection Hstep as <-. unfold refreshAccessToken_resume.
      destruct resp as [e|data]; [by intros s|].
      destruct (tokenStorage m) as [s0|] eqn:Hs0; [|by intros s].
      intros s [= <-]. by rewrite <- (Hinv s0 eq_refl).
    + destruct (promises m !! p) as [[?|?|?]|]; try done. by injection Hstep as <-.
    + injection Hstep as <-. by intros s.
Qed.

Lemma refresh_part_only_written_by_generation_witness :
  refreshPart (Build_TokenStorage "A2" "R1" 172800500 604800000) =
  refreshPart (Build_TokenStorage "A1" "R1" 86400000 604800000).
Proof.
  apply (refresh_part_only_written_by_generation
           [CallGetAuthHeader 86400000; RefreshAnswers 1 (renewed "A2") 86400500;
            RunFinally 1; CallGetAuthHeader 86400600]
           holding
           (Build_AuthManager (Some "01-XXXX") default_scopes 86400000 604800000
              (Some (Build_TokenStorage "A2" "R1" 172800500 604800000)) None
              [Finalised (Fulfilled "A1"); Finalised (Fulfilled "A2")]
              [Post "01-XXXX" default_scopes 86400000 604800000; Put "Bearer R1"]));
    [repeat constructor | reflexivity | reflexivity | reflexivity].
Defined.

(** * Properties of the configuration and of the server's registries *)

Lemma getDomainConfig_explicit (cfg : Config.t) (d : string) :
  truthy d = true →
  getDomainConfig cfg (Some d) =
    match Config.domains cfg !! d with
    | Some dc => inr dc
    | None => inl ("Domain configuration not found for: " +:+ d)
    end.
Proof. intros Hd. unfold getDomainConfig, orElse; simpl. by rewrite Hd, Hd. Qed.



(** The outcomes of [getAuthManager]. *)
Lemma getAuthManager_cases (domainId : option string) (s : SitecoreSearchServer) :
  (∃ e, getAuthManager domainId s = (s, inl e)) ∨
  (∃ domain dc,
     orElse domainId (Config.defaultDomain (config s)) = Some domain ∧ truthy domain = true ∧
     Config.domains (config s) !! domain = Some dc ∧
     ((truthy_opt (DomainConfig.apiKey dc) = false ∧
       getAuthManager domainId s = (s, inr None)) ∨
      (truthy_opt (DomainConfig.apiKey dc) = true ∧
       is_Some (authManagers s !! domain) ∧
       getAuthManager domainId s = (s, inr (Some domain))) ∨
      (truthy_opt (DomainConfig.apiKey dc) = true ∧
       authManagers s !! domain = None ∧
       getAuthManager domainId s =
         (set_authManagers
            (<[domain := new_AuthManager (DomainConfig.apiKey dc) (DomainConfig.authScopes dc)
                           (DomainConfig.accessTokenExpiry dc)
                           (DomainConfig.refreshTokenExpiry dc)]> (authManagers s)) s,
          inr (Some domain))))).
Proof.
  unfold getAuthManager.
  destruct (orElse domainId (Config.defaultDomain (config s))) as [domain|] eqn:Hd;
    [|left; eauto].
  destruct (truthy domain) eqn:Ht; [|left; eauto].
  rewrite (getDomainConfig_explicit _ _ Ht).
  destruct (Config.domains (config s) !! domain) as [dc|] eqn:Hdc; [|left; eauto].
  right. exists domain, dc. repeat split; try done.
  destruct (truthy_opt (DomainConfig.apiKey dc)) eqn:Hk; [|by left].
  right. destruct (authManagers s !! domain) as [m|] eqn:Hm; [left|right]; eauto.
Qed.

(** X10. [getAuthManager] creates the manager of a domain at most once.
    It never replaces or removes a registered manager, so the tokens a
    manager holds survive every later lookup; looking up again gives the
    same answer and changes nothing; it leaves the clients and the
    configuration alone.  When it returns a manager, that is the entry
    of the resolved domain: the one already registered if there was one,
    otherwise a fresh manager built from the domain's secret, scopes and
    lifetimes.  When the domain has no secret it returns undefined, and
    like a throwing call it registers nothing. *)
Theorem getAuthManager_registers_once (domainId : option string) (s : SitecoreSearchServer) :
  let s' := (getAuthManager domainId s).1 in
  let r := (getAuthManager domainId s).2 in
  config s' = config s ∧
  (∀ k, clients k s' = clients k s) ∧
  (∀ d m, authManagers s !! d = Some m → authManagers s' !! d = Some m) ∧
  getAuthManager domainId s' = (s', r) ∧
  match r with
  | inr (Some domain) =>
      orElse domainId (Config.defaultDomain (config s)) = Some domain ∧
      ∃ dc, Config.domains (config s) !! domain = Some dc ∧
            truthy_opt (DomainConfig.apiKey dc) = true ∧
            authManagers s' !! domain =
              Some (default (new_AuthManager (DomainConfig.apiKey dc)
                               (DomainConfig.authScopes dc)
                               (DomainConfig.accessTokenExpiry dc)
                               (DomainConfig.refreshTokenExpiry dc))
                      (authManagers s !! domain)) ∧
            ∀ d, d ≠ domain → authManagers s' !! d = authManagers s !! d
  | _ => s' = s
  end.
Proof.
  destruct (getAuthManager_cases domainId s) as
    [(e & Heq) | (domain & dc & Hd & Ht & Hdc &
       [(Hk & Heq) | [(Hk & [m Hm] & Heq) | (Hk & Hm & Heq)]])];
    rewrite Heq; cbn [fst snd].
  - rewrite Heq. by repeat split.
  - rewrite Heq. by repeat split.
  - rewrite Heq. repeat split; try done.
    exists dc. rewrite Hm. by repeat split.
  - repeat split; try done.
    + intros d m Hdm. simpl. rewrite lookup_insert_ne; [done|]. congruence.
    + unfold getAuthManager. cbn [config authManagers set_authManagers].
      rewrite Hd, Ht, (getDomainConfig_explicit _ _ Ht), Hdc, Hk.
      by rewrite lookup_insert_eq.
    + exists dc. rewrite Hm. repeat split; try done.
      * simpl. by rewrite lookup_insert_eq.
      * intros d Hne. simpl. by rewrite lookup_insert_ne.
Qed.

Lemma getAuthManager_registers_once_witness :
  authManagers
    (getAuthManager None
       (set_authManagers {[ "prod" := holding ]} (new_SitecoreSearchServer fleet))).1
    !! "prod" = Some holding ∧
  (getAuthManager (Some "open") (new_SitecoreSearchServer fleet)).2 = inr None.
Proof.
  split.
  - destruct (getAuthManager_registers_once None
                (set_authManagers {[ "prod" := holding ]} (new_SitecoreSearchServer fleet)))
      as (_ & _ & Hkeep & _).
    apply Hkeep. reflexivity.
  - reflexivity.
Defined.

Lemma run_snoc (evs : list Event) (m m1 m' : AuthManager) ev :
  run m evs = Some m1 → step m1 ev = Some m' → run m (evs ++ [ev]) = Some m'.
Proof.
  revert m. induction evs as [|e evs IH]; intros m Hrun Hstep; simpl in *.
  - injection Hrun as ->. by rewrite Hstep.
  - destruct (step m e) as [m2|]; [|done]. by apply IH.
Qed.

Lemma reachable_step (m m' : AuthManager) ev :
  reachable m → step m ev = Some m' → reachable m'.
Proof.
  intros (key & sc & ae & re & evs & Hrun) Hstep.
  exists key, sc, ae, re, (evs ++ [ev]). by eapply run_snoc.
Qed.

Lemma managerOf_step (cfg : Config.t) (domain : string) (m m' : AuthManager) ev :
  managerOf cfg domain m → step m ev = Some m' → managerOf cfg domain m'.
Proof.
  intros (dc & Hdc & Hk & H1 & H2 & H3 & H4 & Hreach) Hstep.
  destruct (step_same_config _ _ _ Hstep) as (G1 & G2 & G3 & G4).
  exists dc. repeat split; try congruence. by eapply reachable_step.
Qed.

Lemma clientOf_grow (s s' : SitecoreSearchServer) k domain c :
  config s' = config s →
  (∀ d, is_Some (authManagers s !! d) → is_Some (authManagers s' !! d)) →
  clientOf s k domain c → clientOf s' k domain c.
Proof.
  intros Hcfg Hgrow (dc & Hdc & Hb & Hc & Ha & Hm).
  exists dc. rewrite Hcfg. repeat split; auto.
Qed.

Lemma getAuthManager_consistent (domainId : option string) (s : SitecoreSearchServer) :
  consistent s → consistent (getAuthManager domainId s).1.
Proof.
  intros [Hms Hcs].
  destruct (getAuthManager_cases domainId s) as
    [(e & Heq) | (domain & dc & Hd & Ht & Hdc &
       [(Hk & Heq) | [(Hk & _ & Heq) | (Hk & Hm & Heq)]])];
    rewrite Heq; cbn [fst]; try done.
  split.
  - intros d m. cbn [authManagers set_authManagers config].
    destruct (decide (d = domain)) as [->|Hne].
    + rewrite lookup_insert_eq. intros [= <-]. exists dc.
      repeat split; try done. by exists (DomainConfig.apiKey dc), (DomainConfig.authScopes dc),
        (DomainConfig.accessTokenExpiry dc), (DomainConfig.refreshTokenExpiry dc), [].
    + rewrite lookup_insert_ne by done. apply Hms.
  - intros k d c Hc. eapply (clientOf_grow s); [done| |].
    + intros d' [m Hm']. cbn [authManagers set_authManagers].
      destruct (decide (d' = domain)) as [->|Hne]; [by rewrite lookup_insert_eq|].
      rewrite lookup_insert_ne by done. by exists m.
    + apply Hcs. by destruct k.
Qed.

Lemma clients_set_clients (k k' : Api) cs (s : SitecoreSearchServer) :
  clients k' (set_clients k cs s) = if decide (k' = k) then cs else clients k' s.
Proof. by destruct k, k'. Qed.

Lemma set_clients_frame (k : Api) cs (s : SitecoreSearchServer) :
  config (set_clients k cs s) = config s ∧
  authManagers (set_clients k cs s) = authManagers s.
Proof. by destruct k. Qed.

Lemma orElse_explicit (d : string) (b : option string) :
  truthy d = true → orElse (Some d) b = Some d.
Proof. intros Hd. unfold orElse; simpl. by rewrite Hd. Qed.

(** [getAuthManager] called with the name of a configured domain. *)
Lemma getAuthManager_configured (domain : string) (dc : DomainConfig.t)
    (s : SitecoreSearchServer) :
  truthy domain = true → Config.domains (config s) !! domain = Some dc →
  (getAuthManager (Some domain) s).2 =
    inr (if truthy_opt (DomainConfig.apiKey dc) then Some domain else None) ∧
  (truthy_opt (DomainConfig.apiKey dc) = true →
     is_Some (authManagers (getAuthManager (Some domain) s).1 !! domain)).
Proof.
  intros Ht Hdc. unfold getAuthManager.
  rewrite (orElse_explicit _ _ Ht), Ht, (getDomainConfig_explicit _ _ Ht), Hdc.
  destruct (truthy_opt (DomainConfig.apiKey dc)) eqn:Hk; [|done].
  destruct (authManagers s !! domain) as [m|] eqn:Hm; simpl.
  - split; [done|]. intros _. by exists m.
  - split; [done|]. intros _. rewrite lookup_insert_eq. by eexists.
Qed.

(** The outcomes of [getSearchClient], [getIngestionClient] and
    [getEventsClient]. *)
Lemma getClient_cases (k : Api) (domainId : option string) (s : SitecoreSearchServer) :
  (∃ e, getClient k domainId s = (s, inl e)) ∨
  (∃ domain,
     orElse domainId (Config.defaultDomain (config s)) = Some domain ∧ truthy domain = true ∧
     ((is_Some (clients k s !! domain) ∧ getClient k domainId s = (s, inr domain)) ∨
      (∃ dc, clients k s !! domain = None ∧
             Config.domains (config s) !! domain = Some dc ∧
             getClient k domainId s =
               (let s' := (getAuthManager (Some domain) s).1 in
                set_clients k
                  (<[domain := Build_Client (baseUrlOf k dc) (contextOf k)
                                 (if truthy_opt (DomainConfig.apiKey dc)
                                  then Some domain else None)]> (clients k s')) s',
                inr domain)))).
Proof.
  unfold getClient.
  destruct (orElse domainId (Config.defaultDomain (config s))) as [domain|] eqn:Hd;
    [|left; eauto].
  destruct (truthy domain) eqn:Ht; [|left; eauto].
  destruct (clients k s !! domain) as [c|] eqn:Hc.
  { right. exists domain. repeat split; try done. left. split; [by exists c|done]. }
  rewrite (getDomainConfig_explicit _ _ Ht).
  destruct (Config.domains (config s) !! domain) as [dc|] eqn:Hdc; [|left; eauto].
  right. exists domain. repeat split; try done. right. exists dc.
  repeat split; try done.
  destruct (getAuthManager_configured domain dc s Ht Hdc) as [Hr _].
  destruct (getAuthManager (Some domain) s) as [s' r]. simpl in Hr. by rewrite Hr.
Qed.

Lemma getClient_consistent (k : Api) (domainId : option string) (s : SitecoreSearchServer) :
  consistent s → consistent (getClient k domainId s).1.
Proof.
  intros Hs.
  destruct (getClient_cases k domainId s) as
    [(e & Heq) | (domain & Hd & Ht & [(_ & Heq) | (dc & Hnone & Hdc & Heq)])];
    rewrite Heq; cbn [fst]; try done.
  pose proof (getAuthManager_consistent (Some domain) s Hs) as [Hms Hcs].
  destruct (getAuthManager_registers_once (Some domain) s) as (Hcfg & Hcl & _).
  destruct (getAuthManager_configured domain dc s Ht Hdc) as [_ Hsome].
  set (s' := (getAuthManager (Some domain) s).1) in *.
  set (c0 := Build_Client _ _ _).
  destruct (set_clients_frame k (<[domain := c0]> (clients k s')) s') as [Hcfg' Hms'].
  split.
  - intros d m. rewrite Hms', Hcfg'. apply Hms.
  - intros k' d c. rewrite clients_set_clients.
    assert (Hold : clients k' s' !! d = Some c →
                   clientOf (set_clients k (<[domain := c0]> (clients k s')) s') k' d c).
    { intros Hc. eapply (clientOf_grow s'); [done|by rewrite Hms'|by apply Hcs]. }
    destruct (decide (k' = k)) as [->|Hk]; [|exact Hold].
    destruct (decide (d = domain)) as [->|Hne].
    + rewrite lookup_insert_eq. intros [= <-]. exists dc.
      rewrite Hcfg', Hms', Hcfg. by repeat split.
    + by rewrite lookup_insert_ne.
Qed.

Lemma perform_consistent (s : SitecoreSearchServer) (op : ServerOp) :
  consistent s → consistent (perform s op).
Proof.
  intros Hs. destruct op as [domainId | k domainId | domain ev]; simpl.
  - by apply getAuthManager_consistent.
  - by apply getClient_consistent.
  - destruct (authManagers s !! domain) as [m|] eqn:Hm; [|done].
    destruct (step m ev) as [m'|] eqn:Hstep; [|done].
    destruct Hs as [Hms Hcs]. split.
    + intros d m0. cbn [authManagers set_authManagers config].
      destruct (decide (d = domain)) as [->|Hne].
      * rewrite lookup_insert_eq. intros [= <-]. eapply managerOf_step; eauto.
      * rewrite lookup_insert_ne by done. apply Hms.
    + intros k d c Hc. eapply (clientOf_grow s); [done| |].
      * intros d' [m0 Hm0]. cbn [authManagers set_authManagers].
        destruct (decide (d' = domain)) as [->|Hne]; [by rewrite lookup_insert_eq|].
        rewrite lookup_insert_ne by done. by exists m0.
      * apply Hcs. by destruct k.
Qed.

Lemma serve_consistent (ops : list ServerOp) (s : SitecoreSearchServer) :
  consistent s → consistent (serve s ops).
Proof.
  revert s. induction ops as [|op ops IH]; intros s Hs; [done|].
  apply IH. by apply perform_consistent.
Qed.

Lemma new_server_consistent (cfg : Config.t) : consistent (new_SitecoreSearchServer cfg).
Proof. split; [done|]. intros k d c. by destruct k. Qed.

Lemma perform_config (s : SitecoreSearchServer) (op : ServerOp) :
  config (perform s op) = config s.
Proof.
  destruct op as [domainId | k domainId | domain ev]; simpl.
  - by destruct (getAuthManager_registers_once domainId s) as (H & _).
  - destruct (getClient_cases k domainId s) as
      [(e & ->) | (domain & _ & _ & [(_ & ->) | (dc & _ & _ & ->)])]; try done.
    cbn [fst]. destruct (set_clients_frame k
      (<[domain := Build_Client (baseUrlOf k dc) (contextOf k)
                     (if truthy_opt (DomainConfig.apiKey dc) then Some domain else None)]>
         (clients k (getAuthManager (Some domain) s).1))
      (getAuthManager (Some domain) s).1) as [-> _].
    by destruct (getAuthManager_registers_once (Some domain) s) as (H & _).
  - destruct (authManagers s !! domain) as [m|]; [|done]. by destruct (step m ev).
Qed.

Lemma serve_config (ops : list ServerOp) (s : SitecoreSearchServer) :
  config (serve s ops) = config s.
Proof.
  revert s. induction ops as [|op ops IH]; intros s; [done|].
  simpl. unfold serve in IH. by rewrite IH, perform_config.
Qed.

Lemma ingestionOnly_spec (m : AuthManager) :
  ingestionOnly m = true ↔ scopes m = [ingestion].
Proof.
  unfold ingestionOnly. destruct (scopes m) as [|x [|y l]].
  - destruct (bool_decide (ingestion ∈ [])); split; done.
  - change (length [x] =? 1) with true.
    rewrite andb_true_r, bool_decide_eq_true, list_elem_of_singleton.
    split; [by intros <- | by intros [= ->]].
  - change (length (x :: y :: l) =? 1) with false.
    rewrite andb_false_r. split; done.
Qed.



(** X12. Which Authorization a client sends is decided by the scopes of
    its domain, not by the API the client serves.  For a client of any
    of the three APIs holding the manager of its domain: if the domain's
    scopes are exactly [ingestion], every call gets the raw secret, for
    the search and events clients too; otherwise the manager uses
    tokens, for the ingestion client too.  Either way the empty header
    mapping is never returned, the secret of a registered manager being
    non-empty. *)
Theorem header_strategy_is_per_domain (cfg : Config.t) (ops : list ServerOp) (k : Api)
    (domain : string) (c : Client) (m : AuthManager) (now : Z) :
  let s := serve (new_SitecoreSearchServer cfg) ops in
  clients k s !! domain = Some c →
  authManager c = Some domain →
  authManagers s !! domain = Some m →
  ∃ dc key, Config.domains cfg !! domain = Some dc ∧
            DomainConfig.apiKey dc = Some key ∧ key ≠ "" ∧
            (DomainConfig.authScopes dc = [ingestion] →
               getAuthHeader now m = (m, Returns {[ "Authorization" := key ]})) ∧
            (DomainConfig.authScopes dc ≠ [ingestion] → usesTokens m) ∧
            (getAuthHeader now m).2 ≠ Returns ∅.
Proof.
  intros s Hc Ha Hm.
  pose proof (serve_consistent ops _ (new_server_consistent cfg)) as [Hms _].
  pose proof (serve_config ops (new_SitecoreSearchServer cfg)) as Hcfg.
  fold s in Hms, Hcfg. simpl in Hcfg.
  destruct (Hms domain m Hm) as (dc & Hdc & Hk & G1 & G2 & _).
  rewrite Hcfg in Hdc.
  destruct (DomainConfig.apiKey dc) as [key|] eqn:Hkey; [|done]. simpl in Hk.
  exists dc, key. split; [done|]. split; [done|]. split; [by apply truthy_spec|].
  assert (Hraw : DomainConfig.authScopes dc = [ingestion] →
                 getAuthHeader now m = (m, Returns {[ "Authorization" := key ]})).
  { intros Hsc. unfold getAuthHeader. rewrite G1, Hk. simpl.
    assert (ingestionOnly m = true) as -> by (apply ingestionOnly_spec; congruence). done. }
  assert (Htok : DomainConfig.authScopes dc ≠ [ingestion] → usesTokens m).
  { intros Hsc. exists key. repeat split; [done..|].
    destruct (ingestionOnly m) eqn:Hi; [|done].
    apply ingestionOnly_spec in Hi. congruence. }
  split; [exact Hraw|]. split; [exact Htok|].
  destruct (decide (DomainConfig.authScopes dc = [ingestion])) as [Hsc|Hsc].
  - rewrite (Hraw Hsc). simpl.
    intros [= Habs]; by apply (map_non_empty_singleton (M := gmap string)) in Habs.
  - destruct (Htok Hsc) as (key' & Hk' & Ht' & Hi').
    rewrite (getAuthHeader_usesTokens now m key' Hk' Ht' Hi').
    destruct (getAccessToken_branches now m) as
      [(p & _ & ->) | [(ts & _ & _ & _ & ->) | (a & rs & _ & _ & ->)]]; try done.
    simpl. unfold headerOfToken.
    destruct (truthy (accessToken ts));
      intros [= Habs]; by apply (map_non_empty_singleton (M := gmap string)) in Habs.
Qed.

Lemma header_strategy_is_per_domain_witness :
  (getAuthHeader 0 tenant).2 ≠ Returns ∅.
Proof.
  destruct (header_strategy_is_per_domain fleet [LookupClient IngestionApi None]
              IngestionApi "prod"
              (Build_Client "https://discover.sitecorecloud.io" "IngestionClient" (Some "prod"))
              tenant 0 eq_refl eq_refl eq_refl)
    as (dc & key & _ & _ & _ & _ & _ & Hnonempty).
  exact Hnonempty.
Defined.

(** * Properties of the tools *)

Lemma getClient_configured (k : Api) (domainId : option string) (s : SitecoreSearchServer)
    (domain : string) (dc : DomainConfig.t) :
  orElse domainId (Config.defaultDomain (config s)) = Some domain →
  truthy domain = true →
  Config.domains (config s) !! domain = Some dc →
  (getClient k domainId s).2 = inr domain.
Proof.
  intros Hd Ht Hdc.
  destruct (getClient_cases k domainId s) as
    [(e & Heq) | (domain' & Hd' & _ & [(_ & ->) | (dc' & _ & _ & ->)])].
  - exfalso. revert Heq. unfold getClient. rewrite Hd, Ht.
    destruct (clients k s !! domain); [done|].
    rewrite (getDomainConfig_explicit _ _ Ht), Hdc.
    destruct (getAuthManager_configured domain dc s Ht Hdc) as [Hr _].
    destruct (getAuthManager (Some domain) s) as [s' r]. simpl in Hr. by rewrite Hr.
  - simpl. congruence.
  - simpl. congruence.
Qed.

Lemma getClientKey_truthy (domainId : option string) (s : SitecoreSearchServer) key :
  getClientKey domainId s = inr key → truthy key = true.
Proof.
  unfold getClientKey.
  destruct (orElse domainId (Config.defaultDomain (config s))) as [domain|]; [|done].
  destruct (truthy domain); [|done].
  destruct (getDomainConfig (config s) (Some domain)) as [e|dc]; [done|].
  destruct (DomainConfig.clientKey dc) as [ck|]; [|done].
  destruct (truthy ck) eqn:Hck; [|done]. by intros [= <-].
Qed.

Lemma getClientKey_not_customerKeyRequired (domainId : option string)
    (s : SitecoreSearchServer) :
  getClientKey domainId s ≠ inl customerKeyRequired.
Proof.
  unfold getClientKey, getDomainConfig.
  destruct (orElse domainId (Config.defaultDomain (config s))) as [domain|]; [|done].
  destruct (truthy domain) eqn:Ht; [|done].
  rewrite (orElse_explicit _ _ Ht), Ht.
  destruct (Config.domains (config s) !! domain) as [dc|]; [|done].
  destruct (DomainConfig.clientKey dc) as [ck|]; [|done].
  by destruct (truthy ck).
Qed.

Lemma getClient_not_customerKeyRequired (k : Api) (domainId : option string)
    (s : SitecoreSearchServer) :
  (getClient k domainId s).2 ≠ inl customerKeyRequired.
Proof.
  unfold getClient.
  destruct (orElse domainId (Config.defaultDomain (config s))) as [domain|]; [|done].
  destruct (truthy domain) eqn:Ht; [|done].
  destruct (clients k s !! domain); [done|].
  rewrite (getDomainConfig_explicit _ _ Ht).
  destruct (Config.domains (config s) !! domain) as [dc|] eqn:Hdc; [|done].
  destruct (getAuthManager_configured domain dc s Ht Hdc) as [Hr _].
  destruct (getAuthManager (Some domain) s) as [s' r]. simpl in Hr. by rewrite Hr.
Qed.

(** X13. The track-event tool, as the server runs it on valid
    arguments.  It never fails with the tool's own error 'Customer key
    is required': the server fetches the client key of the domain before
    the tool looks at its arguments.  Hence for a configured domain
    without client key the call fails with 'Client key not configured
    for domain', even when the arguments carry a customer key, and
    nothing is registered; with a client key it posts the event to
    /event/v4/publish/ followed by the customer key of the arguments if
    that is non-empty and by the configured client key otherwise, on the
    events client of the resolved domain. *)
Theorem track_event_customer_key (params : TrackEventInput.t) (s : SitecoreSearchServer) :
  (callTrackEvent params s).2 ≠ inl customerKeyRequired ∧
  ∀ domain dc,
    orElse (TrackEventInput.domainId params) (Config.defaultDomain (config s)) = Some domain →
    truthy domain = true →
    Config.domains (config s) !! domain = Some dc →
    (truthy_opt (DomainConfig.clientKey dc) = false →
       callTrackEvent params s =
         (s, inl ("Client key not configured for domain: " +:+ domain +:+
                  ". Please set SITECORE_CLIENT_KEY in your environment."))) ∧
    (∀ ck, DomainConfig.clientKey dc = Some ck → truthy ck = true →
       ∃ call, (callTrackEvent params s).2 = inr (domain, call) ∧
               method call = HttpPost ∧
               url call = "/event/v4/publish/" +:+
                 (if truthy_opt (TrackEventInput.customerKey params)
                  then default "" (TrackEventInput.customerKey params) else ck)).
Proof.
  split.
  - unfold callTrackEvent.
    destruct (getClientKey (TrackEventInput.domainId params) s) as [e|ck] eqn:Hck.
    { simpl. intros [= ->]. by apply (getClientKey_not_customerKeyRequired _ _ Hck). }
    pose proof (getClient_not_customerKeyRequired EventsApi
                  (TrackEventInput.domainId params) s) as Hcl.
    unfold getEventsClient.
    destruct (getClient EventsApi (TrackEventInput.domainId params) s) as [s' [e|c]].
    { simpl in *. intros [= ->]. by apply Hcl. }
    apply getClientKey_truthy in Hck. unfold trackEvent, orElse.
    destruct (TrackEventInput.customerKey params) as [pk|]; simpl.
    + destruct (truthy pk) eqn:Hpk; [by rewrite Hpk | by rewrite Hck].
    + by rewrite Hck.
  - intros domain dc Hd Ht Hdc. split.
    + intros Hno. unfold callTrackEvent, getClientKey.
      rewrite Hd, Ht, (getDomainConfig_explicit _ _ Ht), Hdc.
      destruct (DomainConfig.clientKey dc) as [ck|]; [|done].
      simpl in Hno. by rewrite Hno.
    + intros ck Hck Htck. unfold callTrackEvent, getClientKey.
      rewrite Hd, Ht, (getDomainConfig_explicit _ _ Ht), Hdc, Hck, Htck.
      pose proof (getClient_configured EventsApi _ s domain dc Hd Ht Hdc) as Hcl.
      unfold getEventsClient.
      destruct (getClient EventsApi (TrackEventInput.domainId params) s) as [s' r].
      simpl in Hcl. subst r. unfold trackEvent, orElse.
      destruct (TrackEventInput.customerKey params) as [pk|]; simpl.
      * destruct (truthy pk) eqn:Hpk; [rewrite Hpk | rewrite Htck]; eauto.
      * rewrite Htck. eauto.
Qed.

Lemma track_event_customer_key_witness :
  (callTrackEvent
     (TrackEventInput.Build (Some "open") (Some "123-456") EventType.view None None)
     (new_SitecoreSearchServer fleet)).2 =
  inl "Client key not configured for domain: open. Please set SITECORE_CLIENT_KEY in your environment.".
Proof.
  destruct (track_event_customer_key
              (TrackEventInput.Build (Some "open") (Some "123-456") EventType.view None None)
              (new_SitecoreSearchServer fleet)) as [_ Hdomain].
  destruct (Hdomain "open" openDomain eq_refl eq_refl eq_refl) as [Hmissing _].
  by rewrite Hmissing.
Defined.





